(** * LeaderSync: the leaderboard engine

    A shallow embedding of the module that the score handler imports as
    [utils/memory]: the skip list, the write-ahead log and the engine
    that couples them, followed by the properties of the specification
    that were checked against them.

    Conventions of the embedding.
    - JavaScript objects live in a store ([heap]): a node is referred to by
      its address, so that the in-place assignments of [insertScore]
      ([next.score = ...], [update[i].forward[i] = newNode]) are visible
      through every alias, as they are in the source.
    - A JavaScript [number] holding a score is an integer, [-Infinity] (the
      header's sentinel) or [NaN] (what [parseInt] gives on garbage).
    - Strings are sequences of ASCII characters; [<] on strings is the
      lexicographic order on character codes.
    - [Math.random() < this.probability] is read from an oracle: the
      [n]-th test of one [randomLevel] call answers [rnd n].
    - A [while] loop that follows pointers takes fuel; running out is the
      abrupt completion [Diverges], never a result. *)

From Stdlib Require Import ZArith Ascii Lia Bool.
From stdpp Require Import base list strings gmap sorting.

Open Scope Z_scope.

(** ** JavaScript values *)

Inductive number : Type :=
| Int (z : Z)
| NegInfinity
| NaN.

(** [a > b] on numbers. *)
Definition num_gt (a b : number) : bool :=
  match a, b with
  | Int x, Int y => y <? x
  | Int _, NegInfinity => true
  | _, _ => false
  end.

(** [a === b] on numbers. *)
Definition num_seq (a b : number) : bool :=
  match a, b with
  | Int x, Int y => x =? y
  | NegInfinity, NegInfinity => true
  | _, _ => false
  end.

(** [new Date(t)]: the time value in milliseconds since the epoch, [NaN]
    for an invalid date. *)
Record Date : Type := mkDate { time_value : number }.

(** ** Completions *)

Inductive abrupt : Type :=
| TypeError   (* a property read on [null] or [undefined] *)
| Diverges    (* a loop that did not stop within its fuel *)
| Dangling.   (* an address outside the store: no JavaScript counterpart *)

Inductive completion (A : Type) : Type :=
| Normal (a : A)
| Abrupt (e : abrupt).

Arguments Normal {A} a.
Arguments Abrupt {A} e.

Definition bind {A B : Type} (c : completion A) (k : A -> completion B)
  : completion B :=
  match c with
  | Normal a => k a
  | Abrupt e => Abrupt e
  end.

Notation "'let*' x ':=' c 'in' k" := (bind c (fun x => k))
  (at level 10, x pattern, c at level 100, k at level 200).

(** [arr[i] = v] on a JavaScript array: in range it overwrites, out of
    range it extends the array with holes. A hole and [null] are both
    [None]. *)
Definition js_set {A : Type} (i : nat) (v : option A) (arr : list (option A))
  : list (option A) :=
  if (i <? length arr)%nat then <[i := v]> arr
  else arr ++ replicate (i - length arr) None ++ [v].

(** [arr[i]], with [null], [undefined] and out-of-range all read as
    [None] (the source tests them with [isNullOrUndefined] or truthiness). *)
Definition js_get {A : Type} (arr : list (option A)) (i : nat) : option A :=
  match arr !! i with
  | Some (Some v) => Some v
  | _ => None
  end.

(** ** Interfaces of [src/types] *)

Module IScoreDetails.
(** [game_id] is [undefined] ([None]) in an entry recovered from a log
    line with a single field; the declared type is erased at run time. *)
Record t : Type := mk {
  user_id : string;
  game_id : option string;
  score : number;
  ctime : Date
}.
End IScoreDetails.

Module ILeaderboard.
Record t : Type := mk {
  user_id : string;
  score : number;
  rank : Z;
  game_id : option string
}.
End ILeaderboard.

(** ** The skip list *)

(** Addresses in the store. *)
Abbreviation ptr := nat.

Module SkipListNode.
(** [created_at] is written once from the clock and never read; it is
    left out. *)
Record t : Type := mk {
  user_id : string;
  game_id : option string;
  score : number;
  forward : list (option ptr)
}.

(** [new SkipListNode(user_id, game_id, score, level)] *)
Definition new (user_id : string) (game_id : option string) (score : number)
    (level : nat) : t :=
  mk user_id game_id score (replicate (level + 1) None).

Definition set_score (s : number) (n : t) : t :=
  mk (user_id n) (game_id n) s (forward n).

Definition set_forward (i : nat) (v : option ptr) (n : t) : t :=
  mk (user_id n) (game_id n) (score n) (js_set i v (forward n)).
End SkipListNode.

Abbreviation heap := (list SkipListNode.t).

Definition deref (h : heap) (p : ptr) : completion SkipListNode.t :=
  match h !! p with
  | Some n => Normal n
  | None => Abrupt Dangling
  end.

(** [p.forward[i]] *)
Definition fwd (h : heap) (p : ptr) (i : nat) : option ptr :=
  match h !! p with
  | Some n => js_get (SkipListNode.forward n) i
  | None => None
  end.

(** [p.forward[i] = v] *)
Definition store_forward (h : heap) (p : ptr) (i : nat) (v : option ptr)
  : completion heap :=
  let* n := deref h p in
  Normal (<[p := SkipListNode.set_forward i v n]> h).

(** [p.score = s] *)
Definition store_score (h : heap) (p : ptr) (s : number) : completion heap :=
  let* n := deref h p in
  Normal (<[p := SkipListNode.set_score s n]> h).

Module SkipList.
Record t : Type := mk {
  heap_of : heap;
  header : ptr;
  level : nat;
  maxLevel : nat
}.

(** [constructor()]: the header is the only node, with [maxLevel + 1]
    null forward pointers. *)
Definition new : t :=
  let maxLevel := 20%nat in
  mk [SkipListNode.new "" (Some "") NegInfinity maxLevel] 0%nat 0%nat maxLevel.

(** [randomLevel()]: [n] bounds the remaining iterations
    ([maxLevel - level]); the random test is evaluated before the bound,
    as in the source, which does not change the result. *)
Fixpoint randomLevel_loop (n : nat) (rnd : nat -> bool) (level : nat) : nat :=
  match n with
  | O => level
  | S n' => if rnd level then randomLevel_loop n' rnd (S level) else level
  end.

Definition randomLevel (sl : t) (rnd : nat -> bool) : nat :=
  randomLevel_loop (maxLevel sl) rnd 0%nat.

(** The loop guard of [insertScore] on the node [n = current.forward[i]]:
    [n.score > sd.score || (n.score === sd.score && n.user_id < sd.user_id)] *)
Definition precedes (n : SkipListNode.t) (sd : IScoreDetails.t) : bool :=
  num_gt (SkipListNode.score n) (IScoreDetails.score sd)
  || (num_seq (SkipListNode.score n) (IScoreDetails.score sd)
      && String.ltb (SkipListNode.user_id n) (IScoreDetails.user_id sd)).

(** The inner [while] of [insertScore] at level [i]. *)
Fixpoint walk (fuel : nat) (h : heap) (sd : IScoreDetails.t) (i : nat)
    (current : ptr) : completion ptr :=
  match fuel with
  | O => Abrupt Diverges
  | S fuel' =>
      let* c := deref h current in
      match js_get (SkipListNode.forward c) i with
      | None => Normal current
      | Some nx =>
          let* n := deref h nx in
          if precedes n sd then walk fuel' h sd i nx else Normal current
      end
  end.

(** [for (let i = this.level; i >= 0; i--) { while ...; update[i] = current }] *)
Fixpoint search (h : heap) (sd : IScoreDetails.t) (i : nat) (current : ptr)
    (update : list (option ptr)) : completion (ptr * list (option ptr)) :=
  match walk (length h) h sd i current with
  | Abrupt e => Abrupt e
  | Normal c =>
      let update' := js_set i (Some c) update in
      match i with
      | O => Normal (c, update')
      | S i' => search h sd i' c update'
      end
  end.

(** [for (let i = this.level + 1; i <= newLevel; i++) update[i] = this.header]
    run for [n] iterations from [i]. *)
Fixpoint raise (n : nat) (i : nat) (hd : ptr) (update : list (option ptr))
    : list (option ptr) :=
  match n with
  | O => update
  | S n' => raise n' (S i) hd (js_set i (Some hd) update)
  end.

(** [update[i]!]: the non-null assertion is erased by the compiler; the
    property read that follows throws on [null]. *)
Definition nonnull (o : option ptr) : completion ptr :=
  match o with
  | Some p => Normal p
  | None => Abrupt TypeError
  end.

(** [for (let i = 0; i <= newLevel; i++) {
       newNode.forward[i] = update[i]!.forward[i];
       update[i]!.forward[i] = newNode }]
    run for [n] iterations from [i]. *)
Fixpoint splice (n : nat) (i : nat) (update : list (option ptr))
    (newNode : ptr) (h : heap) : completion heap :=
  match n with
  | O => Normal h
  | S n' =>
      let* u := nonnull (js_get update i) in
      let* h1 := store_forward h newNode i (fwd h u i) in
      let* u' := nonnull (js_get update i) in
      let* h2 := store_forward h1 u' i (Some newNode) in
      splice n' (S i) update newNode h2
  end.

(** The second half of [insertScore], from [const newLevel =
    this.randomLevel()] on: no node of the user was found. *)
Definition insertNode (rnd : nat -> bool) (sd : IScoreDetails.t) (sl : t)
    (update : list (option ptr)) : completion t :=
  let h := heap_of sl in
  let newLevel := randomLevel sl rnd in
  let update :=
    if (level sl <? newLevel)%nat
    then raise (newLevel - level sl) (S (level sl)) (header sl) update
    else update in
  let level' := if (level sl <? newLevel)%nat then newLevel else level sl in
  let newNode := length h in
  let h0 := h ++ [SkipListNode.new (IScoreDetails.user_id sd)
                    (IScoreDetails.game_id sd) (IScoreDetails.score sd)
                    newLevel] in
  let* h' := splice (S newLevel) 0 update newNode h0 in
  Normal (mk h' (header sl) level' (maxLevel sl)).

Definition insertScore (rnd : nat -> bool) (sd : IScoreDetails.t) (sl : t)
    : completion t :=
  let h := heap_of sl in
  let update := replicate (maxLevel sl + 1) None in
  let* (current, update) := search h sd (level sl) (header sl) update in
  let next := fwd h current 0 in
  match next with
  | Some nx =>
      let* n := deref h nx in
      if String.eqb (SkipListNode.user_id n) (IScoreDetails.user_id sd) then
        (* the node found is the user's: [next.score = scoreDetails.score] *)
        let* h' := store_score h nx (IScoreDetails.score sd) in
        Normal (mk h' (header sl) (level sl) (maxLevel sl))
      else insertNode rnd sd sl update
  | None => insertNode rnd sd sl update
  end.

Definition row (n : SkipListNode.t) (rank : Z) : ILeaderboard.t :=
  ILeaderboard.mk (SkipListNode.user_id n) (SkipListNode.score n) rank
    (SkipListNode.game_id n).

(** [while (current && result.length < k) { result.push(...); ... }]
    Each iteration lengthens [result], so [k] iterations are enough fuel
    on any store. *)
Fixpoint getTopK_loop (fuel : nat) (h : heap) (current : option ptr)
    (rank : Z) (result : list ILeaderboard.t) (k : Z)
    : completion (list ILeaderboard.t) :=
  match current with
  | None => Normal result
  | Some c =>
      if Z.of_nat (length result) <? k then
        match fuel with
        | O => Abrupt Diverges
        | S fuel' =>
            let* n := deref h c in
            getTopK_loop fuel' h (js_get (SkipListNode.forward n) 0)
              (rank + 1) (result ++ [row n rank]) k
        end
      else Normal result
  end.

Definition getTopK (sl : t) (k : Z) : completion (list ILeaderboard.t) :=
  getTopK_loop (Z.to_nat k) (heap_of sl) (fwd (heap_of sl) (header sl) 0)
    1 [] k.

Fixpoint getRank_loop (fuel : nat) (h : heap) (current : option ptr)
    (rank : Z) (userId : string) : completion Z :=
  match current with
  | None => Normal (-1)
  | Some c =>
      match fuel with
      | O => Abrupt Diverges
      | S fuel' =>
          let* n := deref h c in
          if String.eqb (SkipListNode.user_id n) userId then Normal rank
          else getRank_loop fuel' h (js_get (SkipListNode.forward n) 0)
                 (rank + 1) userId
      end
  end.

Definition getRank (sl : t) (userId : string) : completion Z :=
  getRank_loop (length (heap_of sl)) (heap_of sl)
    (fwd (heap_of sl) (header sl) 0) 1 userId.

Fixpoint getScore_loop (fuel : nat) (h : heap) (current : option ptr)
    (userId : string) : completion number :=
  match current with
  | None => Normal (Int (-1))
  | Some c =>
      match fuel with
      | O => Abrupt Diverges
      | S fuel' =>
          let* n := deref h c in
          if String.eqb (SkipListNode.user_id n) userId
          then Normal (SkipListNode.score n)
          else getScore_loop fuel' h (js_get (SkipListNode.forward n) 0) userId
      end
  end.

Definition getScore (sl : t) (userId : string) : completion number :=
  getScore_loop (length (heap_of sl)) (heap_of sl)
    (fwd (heap_of sl) (header sl) 0) userId.
End SkipList.


(** ** JavaScript strings *)

Module JS.
(** White space of [String.prototype.trim] and [parseInt] within ASCII:
    TAB, LF, VT, FF, CR and space. *)
Definition is_ws (c : ascii) : bool :=
  let n := nat_of_ascii c in
  ((9 <=? n) && (n <=? 13) || (n =? 32))%nat.

Fixpoint trimStart (s : string) : string :=
  match s with
  | EmptyString => EmptyString
  | String c r => if is_ws c then trimStart r else s
  end.

Fixpoint trimEnd (s : string) : string :=
  match s with
  | EmptyString => EmptyString
  | String c r =>
      match trimEnd r with
      | EmptyString => if is_ws c then EmptyString else String c EmptyString
      | r' => String c r'
      end
  end.

Definition trim (s : string) : string := trimEnd (trimStart s).

(** [s.split(sep)] for a one-character separator. *)
Fixpoint split (sep : ascii) (s : string) : list string :=
  match s with
  | EmptyString => [EmptyString]
  | String c r =>
      if Ascii.eqb c sep then EmptyString :: split sep r
      else match split sep r with
           | x :: xs => String c x :: xs
           | [] => [String c EmptyString]
           end
  end.

(** A string is truthy when it is not empty. *)
Definition truthy (s : string) : bool :=
  match s with
  | EmptyString => false
  | _ => true
  end.

(** The value of a digit in radix [r], if it is one. *)
Definition digit_val (r : Z) (c : ascii) : option Z :=
  let n := Z.of_nat (nat_of_ascii c) in
  let v :=
    if (48 <=? n) && (n <=? 57) then Some (n - 48)
    else if (97 <=? n) && (n <=? 122) then Some (n - 87)
    else if (65 <=? n) && (n <=? 90) then Some (n - 55)
    else None in
  match v with
  | Some d => if d <? r then Some d else None
  | None => None
  end.

(** The longest prefix of digits, read in radix [r]; [None] when the
    prefix is empty. *)
Fixpoint parse_digits (r : Z) (acc : option Z) (s : string) : option Z :=
  match s with
  | EmptyString => acc
  | String c rest =>
      match digit_val r c with
      | Some d => parse_digits r (Some (default 0 acc * r + d)) rest
      | None => acc
      end
  end.

(** [parseInt(s)] without a radix: leading white space, a sign, an
    optional [0x]/[0X] prefix, then digits up to the first character
    that is not one. Values are exact integers. *)
Definition parseInt_string (s : string) : number :=
  let s := trimStart s in
  let '(sign, s) :=
    match s with
    | String c r =>
        if Ascii.eqb c "-" then (-1, r)
        else if Ascii.eqb c "+" then (1, r)
        else (1, s)
    | EmptyString => (1, s)
    end in
  let '(radix, s) :=
    match s with
    | String c1 (String c2 r) =>
        if Ascii.eqb c1 "0" && (Ascii.eqb c2 "x" || Ascii.eqb c2 "X")
        then (16, r) else (10, s)
    | _ => (10, s)
    end in
  match parse_digits radix None s with
  | Some v => Int (sign * v)
  | None => NaN
  end.

(** [parseInt(x)] where [x] may be [undefined]: ["undefined"] has no
    digits. *)
Definition parseInt (x : option string) : number :=
  match x with
  | Some s => parseInt_string s
  | None => NaN
  end.

Definition digit_char (d : N) : ascii := ascii_of_N (48 + d).

Fixpoint digits_loop (fuel : nat) (n : N) (acc : string) : string :=
  match fuel with
  | O => acc
  | S fuel' =>
      let acc' := String (digit_char (n mod 10)) acc in
      if (n / 10 =? 0)%N then acc' else digits_loop fuel' (n / 10) acc'
  end.

(** The decimal numeral of a natural number. *)
Definition digits (n : N) : string :=
  digits_loop (S (N.to_nat (N.size n))) n EmptyString.

(** [`${x}`] for a number holding an integer. *)
Definition number_toString (x : number) : string :=
  match x with
  | Int z => if z <? 0 then String "-" (digits (Z.to_N (- z)))
             else digits (Z.to_N z)
  | NegInfinity => "-Infinity"
  | NaN => "NaN"
  end.

(** [`${x}`] for a string that may be [undefined]. *)
Definition string_toString (x : option string) : string :=
  default "undefined" x.

(** [`${d}`] for a date: the host renders a valid time value in its own
    time zone ([render]). *)
Definition date_toString (render : Z -> string) (d : Date) : string :=
  match time_value d with
  | Int t => render t
  | _ => "Invalid Date"
  end.

Definition pad2 (n : Z) : string :=
  if n <? 10 then String "0" (digits (Z.to_N n)) else digits (Z.to_N n).

Definition pad4 (n : Z) : string :=
  if n <? 10 then "000" +:+ digits (Z.to_N n)
  else if n <? 100 then "00" +:+ digits (Z.to_N n)
  else if n <? 1000 then "0" +:+ digits (Z.to_N n)
  else digits (Z.to_N n).

Definition day_name (d : Z) : string :=
  nth (Z.to_nat d) ["Sun"; "Mon"; "Tue"; "Wed"; "Thu"; "Fri"; "Sat"] "".

Definition month_name (m : Z) : string :=
  nth (Z.to_nat (m - 1))
    ["Jan"; "Feb"; "Mar"; "Apr"; "May"; "Jun";
     "Jul"; "Aug"; "Sep"; "Oct"; "Nov"; "Dec"] "".

(** [Date.prototype.toString] on a host whose time zone is UTC, for
    years 0 and later: the civil date of day number
    [floor (t / 86400000)] and the time within the day. *)
Definition utc_render (t : Z) : string :=
  let day := t / 86400000 in
  let ms := t mod 86400000 in
  let z := day + 719468 in
  let era := z / 146097 in
  let doe := z mod 146097 in
  let yoe := (doe - doe / 1460 + doe / 36524 - doe / 146096) / 365 in
  let doy := doe - (365 * yoe + yoe / 4 - yoe / 100) in
  let mp := (5 * doy + 2) / 153 in
  let d := doy - (153 * mp + 2) / 5 + 1 in
  let m := if mp <? 10 then mp + 3 else mp - 9 in
  let y := yoe + era * 400 + (if m <=? 2 then 1 else 0) in
  day_name ((day + 4) mod 7) +:+ " " +:+ month_name m +:+ " " +:+ pad2 d
    +:+ " " +:+ pad4 y +:+ " " +:+ pad2 (ms / 3600000) +:+ ":"
    +:+ pad2 (ms / 60000 mod 60) +:+ ":" +:+ pad2 (ms / 1000 mod 60)
    +:+ " GMT+0000 (Coordinated Universal Time)".
End JS.

(** [new Date(n)]: a time value beyond 8.64e15 ms, or [NaN], gives an
    invalid date. *)
Definition Date_new (n : number) : Date :=
  match n with
  | Int t => if Z.abs t <=? 8640000000000000 then mkDate (Int t) else mkDate NaN
  | _ => mkDate NaN
  end.

(** ** The write-ahead log *)

(** The files of the data directory: path to contents. *)
Abbreviation files := (gmap string string).

Module WriteAheadLog.
(** A [Promise<void>] that has settled. Appends are awaited one after the
    other, and the callbacks of a [then] chain run in chain order, so
    between two operations [writeQueue] is always settled. *)
Inductive promise : Type :=
| Fulfilled
| Rejected (reason : string).

Record t : Type := mk {
  writeQueue : promise;
  walPath : string
}.

(** [constructor(gameId)]: the path is kept relative to the working
    directory. [ensureDirectory] is not awaited and swallows its errors;
    a missing directory shows as a failing [appendFile]. *)
Definition new (gameId : string) : t :=
  mk Fulfilled ("data/" +:+ gameId +:+ ".wal").

(** [p.then(cb)] with no rejection handler: [cb] runs only when [p] is
    fulfilled; a rejection is handed on and [cb] is skipped. *)
Definition then_ {S : Type} (p : promise) (cb : S -> promise * S) (s : S)
    : promise * S :=
  match p with
  | Fulfilled => cb s
  | Rejected r => (Rejected r, s)
  end.

(** [fs.appendFile(path, data)]: [io] is what the operating system
    answers, [Some reason] for a failure that writes nothing. *)
Definition appendFile (io : option string) (path data : string) (fs : files)
    : promise * files :=
  match io with
  | None => (Fulfilled, <[path := default "" (fs !! path) +:+ data]> fs)
  | Some reason => (Rejected reason, fs)
  end.

Section Host.
(** The host's rendering of a valid date. *)
Variable render : Z -> string.

(** [`${entry.user_id}, ${entry.game_id}, ${entry.score}, ${entry.ctime}\n`] *)
Definition logLine (entry : IScoreDetails.t) : string :=
  IScoreDetails.user_id entry +:+ ", "
  +:+ JS.string_toString (IScoreDetails.game_id entry) +:+ ", "
  +:+ JS.number_toString (IScoreDetails.score entry) +:+ ", "
  +:+ JS.date_toString render (IScoreDetails.ctime entry)
  +:+ String "010" EmptyString.

(** [append(entry)]: the promise returned is the new [writeQueue]. *)
Definition append (io : option string) (entry : IScoreDetails.t) (w : t)
    (fs : files) : promise * t * files :=
  let '(q, fs') :=
    then_ (writeQueue w) (appendFile io (walPath w) (logLine entry)) fs in
  (q, mk q (walPath w), fs').
End Host.

(** The body of the [for] loop of [recover] on one line: the first four
    fields of [line.split(",")]; a missing field is [undefined]. *)
Definition parse_line (line : string) : IScoreDetails.t :=
  let fields := JS.split "," line in
  IScoreDetails.mk (default "" (fields !! 0%nat)) (fields !! 1%nat)
    (JS.parseInt (fields !! 2%nat))
    (Date_new (JS.parseInt (fields !! 3%nat))).

(** [recover()]: a [readFile] that fails (no file, or [io = Some _]) is
    caught and gives no entries. *)
Definition recover (io : option string) (w : t) (fs : files)
    : list IScoreDetails.t :=
  match io, fs !! walPath w with
  | None, Some scoreContent =>
      List.map parse_line
        (List.filter (fun line => JS.truthy (JS.trim line))
           (JS.split "010" (JS.trim scoreContent)))
  | _, _ => []
  end.
End WriteAheadLog.

(** ** The engine *)

Module LeaderboardEngine.
Record t : Type := mk {
  gameId : string;
  skipList : SkipList.t;
  wal : WriteAheadLog.t
}.

(** [constructor(gameId)]: an empty skip list and a log handle; nothing
    is read from the log. *)
Definition new (gameId : string) : t :=
  mk gameId SkipList.new (WriteAheadLog.new gameId).

(** [getInstance(gameId)] on the static map [Instances]. *)
Definition getInstance (gameId : string) (Instances : gmap string t)
    : t * gmap string t :=
  match Instances !! gameId with
  | Some e => (e, Instances)
  | None => (new gameId, <[gameId := new gameId]> Instances)
  end.

(** [for (const entry of entries) this.skipList.insertScore({...entry})];
    the [n]-th insertion draws its level from [rnds n]. *)
Fixpoint replay (rnds : nat -> nat -> bool) (n : nat)
    (entries : list IScoreDetails.t) (sl : SkipList.t)
    : completion SkipList.t :=
  match entries with
  | [] => Normal sl
  | entry :: rest =>
      let score :=
        IScoreDetails.mk (IScoreDetails.user_id entry)
          (IScoreDetails.game_id entry) (IScoreDetails.score entry)
          (IScoreDetails.ctime entry) in
      let* sl' := SkipList.insertScore (rnds n) score sl in
      replay rnds (S n) rest sl'
  end.

(** [recover()]: private, and called from nowhere in the module. *)
Definition recover (rnds : nat -> nat -> bool) (io : option string) (e : t)
    (fs : files) : completion t :=
  let entries := WriteAheadLog.recover io (wal e) fs in
  let* sl := replay rnds 0 entries (skipList e) in
  Normal (mk (gameId e) sl (wal e)).

(** How the promise of an [async] method settles. *)
Inductive settled : Type :=
| Resolved
| RejectedWith (reason : string)   (* the awaited promise rejected *)
| Threw (e : abrupt).               (* the body threw *)

(** [async updateScore(scoreDetails)] *)
Definition updateScore (render : Z -> string) (io : option string)
    (rnd : nat -> bool) (scoreDetails : IScoreDetails.t) (e : t) (fs : files)
    : settled * t * files :=
  let '(q, w, fs') := WriteAheadLog.append render io scoreDetails (wal e) fs in
  match q with
  | WriteAheadLog.Rejected reason =>
      (RejectedWith reason, mk (gameId e) (skipList e) w, fs')
  | WriteAheadLog.Fulfilled =>
      match SkipList.insertScore rnd scoreDetails (skipList e) with
      | Normal sl => (Resolved, mk (gameId e) sl w, fs')
      | Abrupt a => (Threw a, mk (gameId e) (skipList e) w, fs')
      end
  end.

Definition getTopK (e : t) (k : Z) : completion (list ILeaderboard.t) :=
  SkipList.getTopK (skipList e) k.

Definition getUserRank (e : t) (userId : string) : completion Z :=
  SkipList.getRank (skipList e) userId.

Definition getUserScore (e : t) (userId : string) : completion number :=
  SkipList.getScore (skipList e) userId.
End LeaderboardEngine.

(** ** The process: the static registry and the disk *)

Module Process.
Record t : Type := mk {
  Instances : gmap string LeaderboardEngine.t;
  disk : files
}.

Definition start (fs : files) : t := mk ∅ fs.

(** The process dies and is started again: the disk stays, the static
    map is empty. *)
Definition restart (p : t) : t := start (disk p).

(** [LeaderboardEngine.getInstance(game_id)] *)
Definition shard (gameId : string) (p : t) : LeaderboardEngine.t * t :=
  let '(e, m) := LeaderboardEngine.getInstance gameId (Instances p) in
  (e, mk m (disk p)).

(** [await LeaderboardEngine.getInstance(sd.game_id).updateScore(sd)], as
    the request handler does it; the engine is an object, so the
    registry sees the update. *)
Definition updateScore (render : Z -> string) (io : option string)
    (rnd : nat -> bool) (gameId : string) (sd : IScoreDetails.t) (p : t)
    : LeaderboardEngine.settled * t :=
  let '(e, p1) := shard gameId p in
  let '(r, e', fs') :=
    LeaderboardEngine.updateScore render io rnd sd e (disk p1) in
  (r, mk (<[gameId := e']> (Instances p1)) fs').
End Process.

(** ** The abstract view of a skip list

    What the queries can observe is the level-0 chain: the sequence of
    (score, user, game) of the nodes after the header. *)

Definition item : Type := Z * string * option string.

Definition item_score (it : item) : Z := it.1.1.
Definition item_user (it : item) : string := it.1.2.

(** The order of the ranking: higher score first, then smaller user. *)
Definition before (z1 : Z) (u1 : string) (z2 : Z) (u2 : string) : bool :=
  (z2 <? z1) || ((z1 =? z2) && String.ltb u1 u2).

Definition item_lt (a b : item) : Prop :=
  before (item_score a) (item_user a) (item_score b) (item_user b) = true.

(** What [insertScore] does to the level-0 sequence: walk past the items
    that come before the new key; overwrite the score of the item found
    there if it is the same user, insert a new item otherwise. *)
Fixpoint upsert (z : Z) (u : string) (g : option string) (its : list item)
    : list item :=
  match its with
  | [] => [(z, u, g)]
  | (z', u', g') :: rest =>
      if before z' u' z u then (z', u', g') :: upsert z u g rest
      else if String.eqb u' u then (z, u', g') :: rest
      else (z, u, g) :: (z', u', g') :: rest
  end.

Fixpoint rows_from (rank : Z) (its : list item) : list ILeaderboard.t :=
  match its with
  | [] => []
  | (z, u, g) :: rest => ILeaderboard.mk u (Int z) rank g :: rows_from (rank + 1) rest
  end.

Fixpoint rank_from (rank : Z) (u : string) (its : list item) : Z :=
  match its with
  | [] => -1
  | it :: rest =>
      if String.eqb (item_user it) u then rank else rank_from (rank + 1) u rest
  end.

Fixpoint score_in (u : string) (its : list item) : number :=
  match its with
  | [] => Int (-1)
  | it :: rest =>
      if String.eqb (item_user it) u then Int (item_score it) else score_in u rest
  end.

Definition item_of (n : SkipListNode.t) : option item :=
  match SkipListNode.score n with
  | Int z => Some (z, SkipListNode.user_id n, SkipListNode.game_id n)
  | _ => None
  end.

Definition item_at (h : heap) (p : ptr) : option item :=
  match h !! p with
  | Some n => item_of n
  | None => None
  end.

(** [chain h i p L]: following [forward[i]] from [p] visits exactly the
    nodes of [L], then [null]. *)
Fixpoint chain (h : heap) (i : nat) (p : ptr) (L : list ptr) : Prop :=
  match L with
  | [] => fwd h p i = None
  | q :: L' => fwd h p i = Some q /\ chain h i q L'
  end.

Fixpoint last_from (d : ptr) (L : list ptr) : ptr :=
  match L with
  | [] => d
  | x :: L' => last_from x L'
  end.

(** The representation invariant: [Ls i] is the chain of level [i] and
    [its] the content of level 0. *)
Record Inv_at (sl : SkipList.t) (Ls : nat -> list ptr) (its : list item)
    : Prop := {
  inv_chain : forall i,
    chain (SkipList.heap_of sl) i (SkipList.header sl) (Ls i);
  inv_top : forall i, (SkipList.level sl < i)%nat -> Ls i = [];
  inv_sub : forall i p, p ∈ Ls (S i) -> p ∈ Ls i;
  inv_nodup : forall i, NoDup (SkipList.header sl :: Ls i);
  inv_len : forall i, (length (Ls i) < length (SkipList.heap_of sl))%nat;
  inv_hd : (SkipList.header sl < length (SkipList.heap_of sl))%nat;
  inv_items :
    Forall2 (fun p it => item_at (SkipList.heap_of sl) p = Some it) (Ls 0%nat) its;
  inv_sorted : StronglySorted item_lt its
}.

Definition Inv (sl : SkipList.t) (its : list item) : Prop :=
  exists Ls, Inv_at sl Ls its.

(** The states of a skip list that a sequence of [insertScore] with
    integer scores can produce. *)
Inductive reachable : SkipList.t -> Prop :=
| reach_new : reachable SkipList.new
| reach_insert sl rnd sd z sl' :
    reachable sl ->
    IScoreDetails.score sd = Int z ->
    SkipList.insertScore rnd sd sl = Normal sl' ->
    reachable sl'.

(** The node at [q] satisfies the loop guard of [insertScore]. *)
Definition node_precedes (h : heap) (q : ptr) (sd : IScoreDetails.t) : Prop :=
  exists n, h !! q = Some n /\ SkipList.precedes n sd = true.

(** The walk stops in front of [B]: [B] is empty or its first node fails
    the guard. *)
Definition head_stops (h : heap) (B : list ptr) (sd : IScoreDetails.t) : Prop :=
  match B with
  | [] => True
  | b :: _ => exists n, h !! b = Some n /\ SkipList.precedes n sd = false
  end.

(** The chain [L] after the header [hd], once [new] is linked behind the
    node [u] of [hd :: L]. *)
Fixpoint insert_after (u new : ptr) (L : list ptr) : list ptr :=
  match L with
  | [] => []
  | x :: L' =>
      if decide (x = u) then x :: new :: L' else x :: insert_after u new L'
  end.

Definition link (hd new u : ptr) (L : list ptr) : list ptr :=
  if decide (u = hd) then new :: L else insert_after u new L.

(** Rows in ranking order: scores do not increase, and rows of equal
    score come in ascending order of user. *)
Definition ranked_order (rows : list ILeaderboard.t) : Prop :=
  forall (i j : nat) r1 r2,
    (i < j)%nat -> rows !! i = Some r1 -> rows !! j = Some r2 ->
    exists z1 z2,
      ILeaderboard.score r1 = Int z1 /\ ILeaderboard.score r2 = Int z2
      /\ z2 <= z1
      /\ (z1 = z2 ->
          String.ltb (ILeaderboard.user_id r1) (ILeaderboard.user_id r2) = true).

(** The skip list after [insertScore] of ([b], 5) then ([a], 5), both
    drawn at level 0. *)
Definition tie_state : SkipList.t :=
  Eval vm_compute in
    match
      (let* sl := SkipList.insertScore (fun _ => false)
                    (IScoreDetails.mk "b" (Some "g") (Int 5) (mkDate (Int 0)))
                    SkipList.new in
       SkipList.insertScore (fun _ => false)
         (IScoreDetails.mk "a" (Some "g") (Int 5) (mkDate (Int 1))) sl)
    with
    | Normal sl => sl
    | Abrupt _ => SkipList.new
    end.

(** A run of [append] calls on one log, each awaited before the next. *)
Fixpoint appends (render : Z -> string)
    (reqs : list (option string * IScoreDetails.t)) (w : WriteAheadLog.t)
    (fs : files) : list WriteAheadLog.promise * WriteAheadLog.t * files :=
  match reqs with
  | [] => ([], w, fs)
  | (io, entry) :: rest =>
      let '(q, w1, fs1) := WriteAheadLog.append render io entry w fs in
      let '(qs, w2, fs2) := appends render rest w1 fs1 in
      (q :: qs, w2, fs2)
  end.

(** An engine for game [g] whose skip list is [tie_state]. *)
Definition tie_engine : LeaderboardEngine.t :=
  LeaderboardEngine.mk "g" tie_state (WriteAheadLog.new "g").

(** ** Log records *)

Definition LF : ascii := "010".

(** The character [c] occurs in [s]. *)
Fixpoint contains (c : ascii) (s : string) : bool :=
  match s with
  | EmptyString => false
  | String a r => Ascii.eqb a c || contains c r
  end.






(** ** Sequences of writes *)

(** One call of [insertScore] with an integer score: the oracle of its
    [randomLevel] and the fields of the entry. *)
Record Write : Type := mkWrite {
  wr_rnd : nat -> bool;
  wr_user : string;
  wr_game : option string;
  wr_score : Z;
  wr_ctime : Date
}.

Definition entry_of (w : Write) : IScoreDetails.t :=
  IScoreDetails.mk (wr_user w) (wr_game w) (Int (wr_score w)) (wr_ctime w).

(** [for (const w of ws) skipList.insertScore(w)] *)
Fixpoint insertAll (ws : list Write) (sl : SkipList.t) : completion SkipList.t :=
  match ws with
  | [] => Normal sl
  | w :: rest =>
      let* sl' := SkipList.insertScore (wr_rnd w) (entry_of w) sl in
      insertAll rest sl'
  end.

Fixpoint upsertAll (ws : list Write) (its : list item) : list item :=
  match ws with
  | [] => its
  | w :: rest =>
      upsertAll rest (upsert (wr_score w) (wr_user w) (wr_game w) its)
  end.

(** The position of the first item of user [u]. *)
Fixpoint index_of (u : string) (its : list item) : option nat :=
  match its with
  | [] => None
  | it :: rest =>
      if String.eqb (item_user it) u then Some 0%nat
      else match index_of u rest with
           | Some i => Some (S i)
           | None => None
           end
  end.

(** The score of the first item of user [u]. *)
Fixpoint first_score (u : string) (its : list item) : option Z :=
  match its with
  | [] => None
  | it :: rest =>
      if String.eqb (item_user it) u then Some (item_score it)
      else first_score u rest
  end.

(** The highest score among [acc] and the writes of [ws] for user [u]. *)
Fixpoint highest (acc : option Z) (u : string) (ws : list Write) : option Z :=
  match ws with
  | [] => acc
  | w :: rest =>
      highest
        (if String.eqb (wr_user w) u
         then Some (match acc with
                    | Some s => Z.max s (wr_score w)
                    | None => wr_score w
                    end)
         else acc)
        u rest
  end.

(** Some write of [ws] is for user [u]. *)
Definition written (u : string) (ws : list Write) : bool :=
  existsb (fun w => String.eqb (wr_user w) u) ws.

(** ** Runs of appends *)



(** The lines of the entries, one after the other. *)
Fixpoint log_text (render : Z -> string) (es : list IScoreDetails.t) : string :=
  match es with
  | [] => EmptyString
  | e :: rest => WriteAheadLog.logLine render e +:+ log_text render rest
  end.

(** Every character of [s] is white space. *)
Fixpoint all_ws (s : string) : bool :=
  match s with
  | EmptyString => true
  | String a r => JS.is_ws a && all_ws r
  end.


(** ** The request handler of [leaderboard-service/scoreIngestion.ts] *)

Module Handler.





End Handler.

(** The states of the process that requests can produce from a start:
    engines are handed out by [getInstance] and written through
    [updateScore] with integer scores. *)
Inductive served : Process.t -> Prop :=
| served_start fs : served (Process.start fs)
| served_shard g p : served p -> served (Process.shard g p).2
| served_update render io rnd g sd z p :
    served p ->
    IScoreDetails.score sd = Int z ->
    served (Process.updateScore render io rnd g sd p).2.

(** Every engine of the registry is the engine of its key: it carries
    the game and the log path of the key, and its skip list is well
    formed. *)
Definition registry_ok (m : gmap string LeaderboardEngine.t) : Prop :=
  forall g e,
    m !! g = Some e ->
    LeaderboardEngine.gameId e = g
    /\ WriteAheadLog.walPath (LeaderboardEngine.wal e)
       = WriteAheadLog.walPath (WriteAheadLog.new g)
    /\ exists its, Inv (LeaderboardEngine.skipList e) its.

(** ** Runs of updates on one engine *)




(** ** The earlier [insertScore] *)

(** The version of [SkipList.insertScore] that precedes the one above:
    its constructor, [randomLevel] and the part after the search are the
    same; the guard of the inner [while] is bracketed differently. *)
Module SkipList0.
(** The inner [while] at level [i], with the guard
    [(f && f.score > s) || (f!.score === s && f!.user_id < u)] on
    [f = current.forward[i]]: on a node it is [precedes]; on [null] the
    first disjunct is falsy and the second reads [score] of [null]. *)
Fixpoint walk (fuel : nat) (h : heap) (sd : IScoreDetails.t) (i : nat)
    (current : ptr) : completion ptr :=
  match fuel with
  | O => Abrupt Diverges
  | S fuel' =>
      let* c := deref h current in
      match js_get (SkipListNode.forward c) i with
      | None => Abrupt TypeError
      | Some nx =>
          let* n := deref h nx in
          if SkipList.precedes n sd then walk fuel' h sd i nx
          else Normal current
      end
  end.

Fixpoint search (h : heap) (sd : IScoreDetails.t) (i : nat) (current : ptr)
    (update : list (option ptr)) : completion (ptr * list (option ptr)) :=
  match walk (length h) h sd i current with
  | Abrupt e => Abrupt e
  | Normal c =>
      let update' := js_set i (Some c) update in
      match i with
      | O => Normal (c, update')
      | S i' => search h sd i' c update'
      end
  end.

Definition insertScore (rnd : nat -> bool) (sd : IScoreDetails.t)
    (sl : SkipList.t) : completion SkipList.t :=
  let h := SkipList.heap_of sl in
  let update := replicate (SkipList.maxLevel sl + 1) None in
  let* (current, update) :=
    search h sd (SkipList.level sl) (SkipList.header sl) update in
  match fwd h current 0 with
  | Some nx =>
      let* n := deref h nx in
      if String.eqb (SkipListNode.user_id n) (IScoreDetails.user_id sd) then
        let* h' := store_score h nx (IScoreDetails.score sd) in
        Normal (SkipList.mk h' (SkipList.header sl) (SkipList.level sl)
                  (SkipList.maxLevel sl))
      else SkipList.insertNode rnd sd sl update
  | None => SkipList.insertNode rnd sd sl update
  end.

(** The skip lists that calls of this [insertScore] can produce. *)
Inductive reachable : SkipList.t -> Prop :=
| reachable_new : reachable SkipList.new
| reachable_insert rnd sd sl sl' :
    reachable sl -> insertScore rnd sd sl = Normal sl' -> reachable sl'.
End SkipList0.

(** ** The sibling implementation of [utils/dummy.ts] *)

(** What follows [pat] in [s], when [s] begins with [pat]. *)
Fixpoint strip_prefix (pat s : string) : option string :=
  match pat, s with
  | EmptyString, _ => Some s
  | String a p, String b r => if Ascii.eqb a b then strip_prefix p r else None
  | String _ _, EmptyString => None
  end.

(** [s.replace(pat, rep)] for a string pattern and a replacement without
    [$]: the first occurrence of [pat] is replaced. *)
Fixpoint string_replace (pat rep s : string) : string :=
  match strip_prefix pat s with
  | Some rest => rep +:+ rest
  | None =>
      match s with
      | EmptyString => EmptyString
      | String c r => String c (string_replace pat rep r)
      end
  end.

Module Dummy.
Record ScoreEntry : Type := mkScoreEntry {
  userId : string;
  score : number;
  timestamp : number
}.

Module WriteAheadLog.
(** [constructor(gameId)]: [path.join(process.cwd(), "data",
    `${gameId}.wal`)], for a working directory [cwd] other than the root
    and a game without [/]. The queue, [then] and [appendFile] are those
    of the log above. *)
Definition new (cwd gameId : string) : WriteAheadLog.t :=
  WriteAheadLog.mk WriteAheadLog.Fulfilled
    (cwd +:+ "/data/" +:+ gameId +:+ ".wal").

(** [`${entry.userId},${entry.score},${entry.timestamp}\n`] *)
Definition logLine (entry : ScoreEntry) : string :=
  userId entry +:+ ","
  +:+ JS.number_toString (score entry) +:+ ","
  +:+ JS.number_toString (timestamp entry)
  +:+ String "010" EmptyString.

Definition append (io : option string) (entry : ScoreEntry)
    (w : WriteAheadLog.t) (fs : files)
    : WriteAheadLog.promise * WriteAheadLog.t * files :=
  let '(q, fs') :=
    WriteAheadLog.then_ (WriteAheadLog.writeQueue w)
      (WriteAheadLog.appendFile io (WriteAheadLog.walPath w) (logLine entry))
      fs in
  (q, WriteAheadLog.mk q (WriteAheadLog.walPath w), fs').

(** The body of the [for] loop of [recover] on one line. *)
Definition parse_line (line : string) : ScoreEntry :=
  let fields := JS.split "," line in
  mkScoreEntry (default "" (fields !! 0%nat))
    (JS.parseInt (fields !! 1%nat)) (JS.parseInt (fields !! 2%nat)).

(** [recover()]: a failing [readFile] is caught and gives no entries. *)
Definition recover (io : option string) (w : WriteAheadLog.t) (fs : files)
    : list ScoreEntry :=
  match io, fs !! WriteAheadLog.walPath w with
  | None, Some content =>
      List.map parse_line
        (List.filter (fun line => JS.truthy (JS.trim line))
           (JS.split "010" (JS.trim content)))
  | _, _ => []
  end.

(** [this.walPath.replace(".wal", ".checkpoint")] *)
Definition checkpointPath (w : WriteAheadLog.t) : string :=
  string_replace ".wal" ".checkpoint" (WriteAheadLog.walPath w).

(** [checkpoint()]: [copyFile] fails when there is no log or when the
    system says so ([io_copy]), [writeFile] when the system says so
    ([io_write]); a failure ends the [try] and is only logged. *)
Definition checkpoint (io_copy io_write : option string)
    (w : WriteAheadLog.t) (fs : files) : files :=
  match io_copy, fs !! WriteAheadLog.walPath w with
  | None, Some content =>
      let fs1 := <[checkpointPath w := content]> fs in
      match io_write with
      | None => <[WriteAheadLog.walPath w := EmptyString]> fs1
      | Some _ => fs1
      end
  | _, _ => fs
  end.
End WriteAheadLog.

(** [for (const e of es) await wal.append(e)], no append failing. *)
Fixpoint appends (es : list ScoreEntry) (w : WriteAheadLog.t) (fs : files)
    : list WriteAheadLog.promise * WriteAheadLog.t * files :=
  match es with
  | [] => ([], w, fs)
  | entry :: rest =>
      let '(q, w1, fs1) := WriteAheadLog.append None entry w fs in
      let '(qs, w2, fs2) := appends rest w1 fs1 in
      (q :: qs, w2, fs2)
  end.



Fixpoint log_text (es : list ScoreEntry) : string :=
  match es with
  | [] => EmptyString
  | e :: rest => WriteAheadLog.logLine e +:+ log_text rest
  end.
End Dummy.

(** * Properties *)

(** ** The order on strings and on items *)

Lemma ascii_compare_trans a b c :
  Ascii.compare a b = Lt -> Ascii.compare b c = Lt -> Ascii.compare a c = Lt.
Proof.
  unfold Ascii.compare. rewrite !N.compare_lt_iff. lia.
Qed.

Lemma string_compare_trans s1 : forall s2 s3,
  String.compare s1 s2 = Lt -> String.compare s2 s3 = Lt ->
  String.compare s1 s3 = Lt.
Proof.
  induction s1 as [|a s1 IH]; intros [|b s2] [|c s3]; simpl; try congruence.
  destruct (Ascii.compare a b) eqn:Hab; try discriminate;
    destruct (Ascii.compare b c) eqn:Hbc; try discriminate; intros H1 H2.
  - apply Ascii.compare_eq_iff in Hab, Hbc. subst.
    assert (Ascii.compare c c = Eq) as -> by (unfold Ascii.compare; apply N.compare_refl).
    eauto.
  - apply Ascii.compare_eq_iff in Hab. subst. by rewrite Hbc.
  - apply Ascii.compare_eq_iff in Hbc. subst. by rewrite Hab.
  - by rewrite (ascii_compare_trans _ _ _ Hab Hbc).
Qed.

Lemma ltb_trans s1 s2 s3 :
  String.ltb s1 s2 = true -> String.ltb s2 s3 = true -> String.ltb s1 s3 = true.
Proof.
  unfold String.ltb. intros H1 H2.
  destruct (String.compare s1 s2) eqn:E1; try discriminate.
  destruct (String.compare s2 s3) eqn:E2; try discriminate.
  by rewrite (string_compare_trans _ _ _ E1 E2).
Qed.

Lemma ltb_total s1 s2 :
  String.ltb s1 s2 = false -> s1 <> s2 -> String.ltb s2 s1 = true.
Proof.
  unfold String.ltb. intros H Hne.
  rewrite (String.compare_antisym s2 s1).
  destruct (String.compare s1 s2) eqn:E; try done.
  by apply String.compare_eq_iff in E.
Qed.

Lemma before_trans z1 u1 z2 u2 z3 u3 :
  before z1 u1 z2 u2 = true -> before z2 u2 z3 u3 = true ->
  before z1 u1 z3 u3 = true.
Proof.
  unfold before. rewrite !orb_true_iff, !andb_true_iff, !Z.ltb_lt, !Z.eqb_eq.
  intros [?|[? H1]] [?|[? H2]]; try (left; lia).
  right. split; [lia|]. eapply ltb_trans; eauto.
Qed.

Lemma before_total z1 u1 z2 u2 :
  before z1 u1 z2 u2 = false -> u1 <> u2 -> before z2 u2 z1 u1 = true.
Proof.
  unfold before.
  rewrite orb_false_iff, andb_false_iff, orb_true_iff, andb_true_iff,
    !Z.ltb_lt, Z.ltb_ge, Z.eqb_eq, Z.eqb_neq.
  intros [? [?|H]] Hne; [left; lia|].
  destruct (decide (z1 = z2)) as [->|]; [|left; lia].
  right. split; [done|]. by apply ltb_total.
Qed.

(** Raising the score of a key keeps it in front of what it was in front
    of. *)
Lemma before_raise z z' u x ux :
  before z' u z u = false -> before z' u x ux = true -> before z u x ux = true.
Proof.
  unfold before.
  rewrite orb_false_iff, andb_false_iff, !orb_true_iff, !andb_true_iff,
    !Z.ltb_lt, Z.ltb_ge, !Z.eqb_eq, Z.eqb_neq.
  intros [Hle _] [?|[Heq Hu]]; [left; lia|].
  destruct (decide (z = z')) as [E|]; [right; split; [lia|done]|left; lia].
Qed.

(** ** The abstract upsert keeps the sequence sorted *)

Lemma upsert_Forall (Q : item -> Prop) z u g its :
  (forall g', Q (z, u, g')) -> Forall Q its -> Forall Q (upsert z u g its).
Proof.
  intros HQ. induction 1 as [|[[z' u'] g'] rest Hx Hrest IH]; simpl.
  - by repeat constructor.
  - destruct (before z' u' z u); [by constructor|].
    destruct (String.eqb_spec u' u) as [->|]; by repeat constructor.
Qed.

Lemma upsert_sorted z u g its :
  StronglySorted item_lt its -> StronglySorted item_lt (upsert z u g its).
Proof.
  induction 1 as [|[[z' u'] g'] rest Hs IH Hall]; simpl.
  - by repeat constructor.
  - destruct (before z' u' z u) eqn:Hb.
    + constructor; [done|]. by apply upsert_Forall.
    + destruct (String.eqb_spec u' u) as [->|Hne].
      * constructor; [done|].
        eapply Forall_impl; [exact Hall|].
        intros [[x ux] gx]. unfold item_lt; simpl. by apply before_raise.
      * assert (before z u z' u' = true) as Hlt by by apply before_total.
        constructor; [by constructor|].
        constructor; [done|].
        eapply Forall_impl; [exact Hall|].
        intros [[x ux] gx]. unfold item_lt; simpl. by apply before_trans.
Qed.

Lemma upsert_app z u g its1 its2 :
  Forall (fun it => before (item_score it) (item_user it) z u = true) its1 ->
  upsert z u g (its1 ++ its2) = its1 ++ upsert z u g its2.
Proof.
  induction 1 as [|[[z' u'] g'] rest Hx Hrest IH]; simpl; [done|].
  unfold item_score, item_user in Hx; simpl in Hx. by rewrite Hx, IH.
Qed.

(** ** Arrays and the store *)

Section Store.
Local Open Scope nat_scope.

Lemma js_get_set_eq {A} i (v : option A) arr : js_get (js_set i v arr) i = v.
Proof.
  unfold js_get, js_set. destruct (Nat.ltb_spec i (length arr)).
  - rewrite list_lookup_insert_eq by done. by destruct v.
  - rewrite lookup_app_r by lia.
    rewrite lookup_app_r; rewrite length_replicate; [|lia].
    replace (i - length arr - (i - length arr)) with 0 by lia.
    simpl. by destruct v.
Qed.

Lemma js_get_set_ne {A} i j (v : option A) arr :
  i <> j -> js_get (js_set i v arr) j = js_get arr j.
Proof.
  unfold js_get, js_set. intros Hne. destruct (Nat.ltb_spec i (length arr)).
  - by rewrite list_lookup_insert_ne.
  - destruct (decide (j < length arr)).
    + by rewrite lookup_app_l.
    + rewrite (lookup_ge_None_2 arr j) by lia. rewrite lookup_app_r by lia.
      destruct (decide (j - length arr < i - length arr)).
      * rewrite lookup_app_l by (rewrite length_replicate; lia).
        by rewrite lookup_replicate_2.
      * rewrite lookup_app_r by (rewrite length_replicate; lia).
        rewrite length_replicate.
        destruct (j - length arr - (i - length arr)) eqn:E; [lia|done].
Qed.

Lemma js_get_replicate {A} n i : js_get (replicate n (@None A)) i = None.
Proof.
  unfold js_get. destruct (replicate n None !! i) as [[x|]|] eqn:E; try done.
  apply lookup_replicate in E as [? _]. done.
Qed.

Lemma fwd_set_forward h p n i v q j :
  h !! p = Some n ->
  fwd (<[p := SkipListNode.set_forward i v n]> h) q j
  = if decide (q = p /\ j = i) then v else fwd h q j.
Proof.
  intros Hp. unfold fwd. destruct (decide (q = p)) as [->|Hq].
  - rewrite list_lookup_insert_eq by (by eapply lookup_lt_Some). simpl.
    rewrite Hp. destruct (decide (j = i)) as [->|Hj].
    + rewrite js_get_set_eq. by rewrite decide_True.
    + rewrite js_get_set_ne by done. rewrite decide_False; [done|tauto].
  - rewrite list_lookup_insert_ne by done. rewrite decide_False; [done|tauto].
Qed.

Lemma item_at_set_forward h p n i v q :
  h !! p = Some n ->
  item_at (<[p := SkipListNode.set_forward i v n]> h) q = item_at h q.
Proof.
  intros Hp. unfold item_at. destruct (decide (q = p)) as [->|Hq].
  - rewrite list_lookup_insert_eq by (by eapply lookup_lt_Some). by rewrite Hp.
  - by rewrite list_lookup_insert_ne.
Qed.

Lemma fwd_set_score h p n s q j :
  h !! p = Some n ->
  fwd (<[p := SkipListNode.set_score s n]> h) q j = fwd h q j.
Proof.
  intros Hp. unfold fwd. destruct (decide (q = p)) as [->|Hq].
  - rewrite list_lookup_insert_eq by (by eapply lookup_lt_Some). by rewrite Hp.
  - by rewrite list_lookup_insert_ne.
Qed.

Lemma fwd_alloc_old h n q j : q < length h -> fwd (h ++ [n]) q j = fwd h q j.
Proof. intros. unfold fwd. by rewrite lookup_app_l. Qed.

(** ** Chains *)

Lemma last_from_app d P A : last_from d (P ++ A) = last_from (last_from d P) A.
Proof. revert d. induction P as [|x P IH]; intros d; simpl; [done|apply IH]. Qed.

Lemma last_from_in d A : A <> [] -> last_from d A ∈ A.
Proof.
  revert d. induction A as [|x A IH]; intros d Hne; [done|]. simpl.
  destruct A as [|y A]; [simpl; left|]. right. by apply IH.
Qed.

Lemma last_from_in_cons d A : last_from d A ∈ d :: A.
Proof.
  destruct A as [|x A]; [left|]. right. by apply (last_from_in d (x :: A)).
Qed.

Lemma chain_ext h h' i L : forall p,
  (forall q, q ∈ p :: L -> fwd h' q i = fwd h q i) ->
  chain h i p L -> chain h' i p L.
Proof.
  induction L as [|x L IH]; intros p Hsame; simpl.
  - intros <-. apply Hsame. left.
  - intros [Hp Hc]. split.
    + rewrite <- Hp. apply Hsame. left.
    + apply IH; [|done]. intros q Hq. apply Hsame. by right.
Qed.

Lemma chain_last h i P S : forall p,
  chain h i p (P ++ S) -> chain h i (last_from p P) S.
Proof.
  induction P as [|x P IH]; intros p; simpl; [done|]. intros [_ Hc]. by apply IH.
Qed.

(** Linking [new] after [u = last_from hd P] turns the chain [P ++ B]
    into [P ++ new :: B]. *)
Lemma chain_splice h h' i new B P : forall hd,
  chain h i hd (P ++ B) ->
  NoDup (hd :: P ++ B) ->
  new ∉ hd :: P ++ B ->
  (forall q, fwd h' q i =
     if decide (q = last_from hd P) then Some new
     else if decide (q = new) then fwd h (last_from hd P) i
     else fwd h q i) ->
  chain h' i hd (P ++ new :: B).
Proof.
  induction P as [|x P IH]; intros hd Hc Hnd Hnew Hf; simpl in *.
  - split; [by rewrite Hf, decide_True|].
    assert (new <> hd) as Hne by (intros ->; apply Hnew; left).
    assert (fwd h' new i = fwd h hd i) as Hn.
    { rewrite Hf, decide_False, decide_True; done. }
    apply NoDup_cons in Hnd as [Hhd HB].
    destruct B as [|b B]; simpl in *; [congruence|].
    destruct Hc as [Hb Hc]. split; [congruence|].
    apply (chain_ext h); [|done].
    intros q Hq. rewrite Hf.
    rewrite decide_False by (intros ->; by apply Hhd).
    rewrite decide_False; [done|]. intros ->. apply Hnew. by right.
  - destruct Hc as [Hx Hc].
    apply NoDup_cons in Hnd as [Hhd Hnd].
    assert (last_from x P ∈ x :: P ++ B) as Hin.
    { destruct P as [|y P]; [left|].
      right. apply elem_of_app. left. by apply last_from_in. }
    split.
    + rewrite Hf. rewrite decide_False by (intros ->; by apply Hhd).
      rewrite decide_False; [done|]. intros ->. apply Hnew. left.
    + apply IH; try done. intros Hn. apply Hnew. by right.
Qed.

End Store.

(** ** The search of [insertScore] *)

Section Search.
Local Open Scope nat_scope.

Lemma walk_spec h sd i S : forall p fuel,
  chain h i p S ->
  is_Some (h !! p) ->
  (forall q, q ∈ S -> is_Some (h !! q)) ->
  length S < fuel ->
  exists A B, S = A ++ B
    /\ SkipList.walk fuel h sd i p = Normal (last_from p A)
    /\ Forall (fun q => node_precedes h q sd) A
    /\ head_stops h B sd.
Proof.
  induction S as [|q S IH]; intros p fuel Hc [n Hn] Hv Hlen;
    (destruct fuel as [|fuel]; [simpl in Hlen; lia|]); simpl in Hc.
  - exists [], []. split; [done|]. split; [|done].
    simpl. unfold deref. rewrite Hn. simpl.
    unfold fwd in Hc. rewrite Hn in Hc. by rewrite Hc.
  - destruct Hc as [Hq Hc]. destruct (Hv q) as [nq Hnq]; [left|].
    simpl. unfold deref. rewrite Hn. simpl.
    unfold fwd in Hq. rewrite Hn in Hq. rewrite Hq, Hnq. simpl.
    destruct (SkipList.precedes nq sd) eqn:Hp.
    + destruct (IH q fuel Hc) as (A & B & -> & Hw & HA & HB);
        [eauto|intros; apply Hv; by right|simpl in Hlen; lia|].
      exists (q :: A), B. simpl. repeat split; try done.
      constructor; [by exists nq|done].
    + exists [], (q :: S). simpl. repeat split; try done. by exists nq.
Qed.

Context (sl : SkipList.t) (Ls : nat -> list ptr) (its : list item).
Context (HInv : Inv_at sl Ls its).
Let h := SkipList.heap_of sl.
Let hd := SkipList.header sl.

Lemma inv_sub0 i p : p ∈ Ls i -> p ∈ Ls 0.
Proof using HInv.
  induction i as [|i IH]; [done|]. intros Hp. apply IH. by apply (inv_sub _ _ _ HInv).
Qed.

Lemma inv_item p : p ∈ Ls 0 -> exists it, item_at h p = Some it.
Proof using HInv.
  intros Hp. apply list_elem_of_lookup in Hp as [k Hk].
  destruct (Forall2_lookup_l _ _ _ _ _ (inv_items _ _ _ HInv) Hk) as (it & _ & Hit).
  by exists it.
Qed.

Lemma inv_valid i p : p ∈ Ls i -> is_Some (h !! p).
Proof using HInv.
  intros Hp. apply inv_sub0, inv_item in Hp as [it Hit].
  unfold item_at in Hit. fold h. destruct (h !! p); [eauto|done].
Qed.

Lemma inv_hd_valid : is_Some (h !! hd).
Proof using HInv. apply lookup_lt_is_Some. apply (inv_hd _ _ _ HInv). Qed.

Lemma inv_hd_notin i : hd ∉ Ls i.
Proof using HInv.
  pose proof (inv_nodup _ _ _ HInv i) as Hnd. by apply NoDup_cons in Hnd as [? _].
Qed.

Lemma walk_level sd i cur :
  (exists P S, Ls i = P ++ S /\ cur = last_from hd P) ->
  (cur = hd \/ node_precedes h cur sd) ->
  exists P B, Ls i = P ++ B
    /\ SkipList.walk (length h) h sd i cur = Normal (last_from hd P)
    /\ (last_from hd P = hd \/ node_precedes h (last_from hd P) sd)
    /\ head_stops h B sd.
Proof using HInv.
  intros (P & S & HL & ->) Hcur.
  pose proof (inv_chain _ _ _ HInv i) as Hc. fold h hd in Hc. rewrite HL in Hc.
  apply chain_last in Hc.
  destruct (walk_spec h sd i S (last_from hd P) (length h) Hc)
    as (A & B & -> & Hw & HA & HB).
  - destruct Hcur as [->|(n & Hn & _)]; [apply inv_hd_valid|eauto].
  - intros q Hq. apply (inv_valid i). rewrite HL. apply elem_of_app. by right.
  - pose proof (inv_len _ _ _ HInv i) as Hl. fold h in Hl.
    rewrite HL, length_app in Hl. lia.
  - exists (P ++ A), B. rewrite last_from_app. rewrite <- app_assoc.
    repeat split; try done.
    destruct A as [|a A]; [done|]. right.
    eapply (proj1 (Forall_forall _ _) HA). by apply last_from_in.
Qed.

Lemma search_spec sd : forall i cur upd,
  (exists P S, Ls i = P ++ S /\ cur = last_from hd P) ->
  (cur = hd \/ node_precedes h cur sd) ->
  exists c upd', SkipList.search h sd i cur upd = Normal (c, upd')
    /\ (forall j, j <= i ->
          exists P B, Ls j = P ++ B /\ js_get upd' j = Some (last_from hd P))
    /\ (forall j, i < j -> js_get upd' j = js_get upd j)
    /\ (exists P B, Ls 0 = P ++ B /\ c = last_from hd P
          /\ js_get upd' 0 = Some c
          /\ (c = hd \/ node_precedes h c sd) /\ head_stops h B sd).
Proof using HInv.
  induction i as [|i IH]; intros cur upd Hpos Hcur;
    destruct (walk_level sd _ cur Hpos Hcur) as (P & B & HL & Hw & Hc & HB);
    simpl; rewrite Hw.
  - eexists _, _. split; [done|]. split; [|split].
    + intros j Hj. assert (j = 0) as -> by lia.
      exists P, B. by rewrite js_get_set_eq.
    + intros j Hj. apply js_get_set_ne. lia.
    + exists P, B. by rewrite js_get_set_eq.
  - destruct (IH (last_from hd P) (js_set (S i) (Some (last_from hd P)) upd))
      as (c & upd' & Hs & Hlow & Hhigh & H0); [|done|].
    { destruct P as [|x P]; [by exists [], (Ls i)|].
      assert (last_from hd (x :: P) ∈ Ls i) as Hin.
      { apply (inv_sub _ _ _ HInv). rewrite HL. apply elem_of_app. left.
        by apply last_from_in. }
      apply list_elem_of_split in Hin as (l1 & l2 & Hl).
      exists (l1 ++ [last_from hd (x :: P)]), l2.
      rewrite <- app_assoc. split; [done|]. by rewrite last_from_app. }
    exists c, upd'. split; [done|]. split; [|split; [|done]].
    + intros j Hj. destruct (decide (j = S i)) as [->|].
      * exists P, B. split; [done|]. rewrite Hhigh by lia. by rewrite js_get_set_eq.
      * apply Hlow. lia.
    + intros j Hj. rewrite Hhigh by lia. apply js_get_set_ne. lia.
Qed.

End Search.

(** ** Linking a new node *)

Section Splice.
Local Open Scope nat_scope.

Lemma raise_spec hd : forall n i upd j,
  js_get (SkipList.raise n i hd upd) j
  = if decide (i <= j < i + n) then Some hd else js_get upd j.
Proof.
  induction n as [|n IH]; intros i upd j; simpl.
  - by rewrite decide_False by lia.
  - rewrite IH. destruct (decide (S i <= j < S i + n)).
    + by rewrite decide_True by lia.
    + destruct (decide (j = i)) as [->|].
      * rewrite js_get_set_eq. by rewrite decide_True by lia.
      * rewrite js_get_set_ne by done. by rewrite decide_False by lia.
Qed.

Lemma store_forward_ok h p n i v :
  h !! p = Some n ->
  store_forward h p i v = Normal (<[p := SkipListNode.set_forward i v n]> h).
Proof. intros Hp. unfold store_forward, deref. by rewrite Hp. Qed.

Lemma splice_spec upd new : forall n i h1,
  new < length h1 ->
  (forall j, i <= j < i + n ->
     exists u, js_get upd j = Some u /\ u < length h1 /\ u <> new) ->
  exists h', SkipList.splice n i upd new h1 = Normal h'
    /\ length h' = length h1
    /\ (forall q, item_at h' q = item_at h1 q)
    /\ (forall q j, fwd h' q j =
          if decide (i <= j < i + n) then
            match js_get upd j with
            | Some u =>
                if decide (q = u) then Some new
                else if decide (q = new) then fwd h1 u j
                else fwd h1 q j
            | None => fwd h1 q j
            end
          else fwd h1 q j).
Proof.
  induction n as [|n IH]; intros i h1 Hnew Hupd; simpl.
  - exists h1. repeat split; try done. intros. by rewrite decide_False by lia.
  - destruct (Hupd i) as (u & Hu & Hul & Hun); [lia|]. rewrite Hu. simpl.
    destruct (lookup_lt_is_Some_2 h1 new Hnew) as [nn Hnn].
    rewrite (store_forward_ok _ _ _ _ _ Hnn). simpl.
    destruct (lookup_lt_is_Some_2 h1 u Hul) as [nu Hnu].
    set (h2 := <[new := SkipListNode.set_forward i (fwd h1 u i) nn]> h1).
    assert (h2 !! u = Some nu) as Hnu2.
    { unfold h2. by rewrite list_lookup_insert_ne. }
    rewrite (store_forward_ok _ _ _ _ _ Hnu2). simpl.
    set (h3 := <[u := SkipListNode.set_forward i (Some new) nu]> h2).
    assert (length h3 = length h1) as Hlen3.
    { unfold h3, h2. by rewrite !length_insert. }
    destruct (IH (S i) h3) as (h' & Hs & Hlen & Hit & Hf).
    { lia. }
    { intros j Hj. destruct (Hupd j) as (u' & ? & ? & ?); [lia|].
      exists u'. repeat split; try done. lia. }
    assert (forall q j, fwd h3 q j =
              if decide (q = u /\ j = i) then Some new
              else if decide (q = new /\ j = i) then fwd h1 u i
              else fwd h1 q j) as Hf3.
    { intros q j. unfold h3. rewrite (fwd_set_forward _ _ _ _ _ _ _ Hnu2).
      destruct (decide (q = u /\ j = i)); [done|].
      unfold h2. by rewrite (fwd_set_forward _ _ _ _ _ _ _ Hnn). }
    exists h'. split; [done|]. split; [lia|]. split.
    + intros q. rewrite Hit. unfold h3.
      rewrite (item_at_set_forward _ _ _ _ _ _ Hnu2). unfold h2.
      by rewrite (item_at_set_forward _ _ _ _ _ _ Hnn).
    + intros q j. rewrite Hf. destruct (decide (S i <= j < S i + n)).
      * rewrite decide_True by lia.
        assert (forall x, fwd h3 x j = fwd h1 x j) as E.
        { intros x. rewrite Hf3.
          rewrite (decide_False (P := x = u /\ j = i)) by lia.
          by rewrite (decide_False (P := x = new /\ j = i)) by lia. }
        destruct (js_get upd j); by rewrite !E.
      * rewrite Hf3. destruct (decide (j = i)) as [->|].
        -- rewrite (decide_True (P := i <= i < i + S n)) by lia. rewrite Hu.
           destruct (decide (q = u)) as [->|]; [by rewrite decide_True|].
           rewrite (decide_False (P := q = u /\ i = i)) by tauto.
           destruct (decide (q = new)) as [->|]; [by rewrite decide_True|].
           by rewrite decide_False by tauto.
        -- rewrite (decide_False (P := q = u /\ j = i)) by tauto.
           rewrite (decide_False (P := q = new /\ j = i)) by tauto.
           by rewrite decide_False by lia.
Qed.

Lemma insert_after_split new B P : forall x,
  NoDup (x :: P ++ B) ->
  insert_after (last_from x P) new (x :: P ++ B) = x :: P ++ new :: B.
Proof.
  induction P as [|y P IH]; intros x Hnd.
  - simpl. by rewrite decide_True.
  - apply NoDup_cons in Hnd as [Hx Hnd].
    change (insert_after (last_from y P) new (x :: (y :: P) ++ B)
            = x :: (y :: P) ++ new :: B).
    cbn [insert_after]. rewrite decide_False.
    + f_equal. apply (IH y Hnd).
    + intros ->. apply Hx. apply elem_of_app. left. apply last_from_in_cons.
Qed.

Lemma link_split hd new P B :
  NoDup (hd :: P ++ B) ->
  link hd new (last_from hd P) (P ++ B) = P ++ new :: B.
Proof.
  intros Hnd. unfold link. destruct P as [|x P].
  - simpl. by rewrite decide_True.
  - apply NoDup_cons in Hnd as [Hhd Hnd].
    rewrite decide_False.
    + apply (insert_after_split new B P x Hnd).
    + intros E. apply Hhd. rewrite <- E.
      apply elem_of_app. left. apply (last_from_in_cons x P).
Qed.

End Splice.

(** ** [insertScore] keeps the invariant and refines [upsert] *)

Section Insert.
Local Open Scope nat_scope.

Context (sl : SkipList.t) (Ls : nat -> list ptr) (its : list item).
Context (HInv : Inv_at sl Ls its).
Let h := SkipList.heap_of sl.
Let hd := SkipList.header sl.

Lemma inv_in_valid j q : q ∈ hd :: Ls j -> q < length h.
Proof using HInv.
  intros [->|Hq]%elem_of_cons; [apply (inv_hd _ _ _ HInv)|].
  apply lookup_lt_is_Some. by eapply inv_valid.
Qed.

Lemma item_at_alloc_Some (h1 : heap) n q it :
  item_at h1 q = Some it -> item_at (h1 ++ [n]) q = Some it.
Proof.
  unfold item_at. destruct (h1 !! q) eqn:E; [|done].
  by rewrite (lookup_app_l_Some _ _ _ _ E).
Qed.

Lemma insert_new_inv L upd P0 B0 itsP itsB z u g level' mx :
  (forall j, j <= L ->
     exists P B, Ls j = P ++ B /\ js_get upd j = Some (last_from hd P)) ->
  Ls 0 = P0 ++ B0 ->
  js_get upd 0 = Some (last_from hd P0) ->
  Forall2 (fun p it => item_at h p = Some it) P0 itsP ->
  Forall2 (fun p it => item_at h p = Some it) B0 itsB ->
  StronglySorted item_lt (itsP ++ (z, u, g) :: itsB) ->
  SkipList.level sl <= level' -> L <= level' ->
  exists h',
    SkipList.splice (S L) 0 upd (length h)
      (h ++ [SkipListNode.new u g (Int z) L]) = Normal h'
    /\ Inv (SkipList.mk h' hd level' mx) (itsP ++ (z, u, g) :: itsB).
Proof using HInv.
  intros Hupd HL0 Hu0 HP HB Hsorted Hlv HLl.
  set (new := length h). set (h0 := h ++ [_]).
  assert (length h0 = S (length h)) as Hlen0.
  { unfold h0. rewrite length_app. simpl. lia. }
  destruct (splice_spec upd new (S L) 0 h0) as (h' & Hsp & Hlen & Hit & Hf).
  { unfold new. lia. }
  { intros j Hj. destruct (Hupd j) as (P & B & HL & Hu); [lia|].
    exists (last_from hd P). split; [done|].
    assert (last_from hd P < length h) as Hv.
    { apply (inv_in_valid j). rewrite HL.
      pose proof (last_from_in_cons hd P) as [->|Hin]%elem_of_cons; [left|].
      right. apply elem_of_app. by left. }
    unfold new. lia. }
  exists h'. split; [done|].
  set (Ls' := fun j =>
         if decide (j <= L) then
           match js_get upd j with
           | Some u' => link hd new u' (Ls j)
           | None => Ls j
           end
         else Ls j).
  assert (forall j, j <= L ->
            exists P B, Ls j = P ++ B /\ Ls' j = P ++ new :: B
              /\ js_get upd j = Some (last_from hd P)) as Hin.
  { intros j Hj. destruct (Hupd j Hj) as (P & B & HL & Hu).
    exists P, B. repeat split; try done.
    unfold Ls'. rewrite decide_True by done. rewrite Hu, HL.
    apply link_split. rewrite <- HL. apply (inv_nodup _ _ _ HInv). }
  assert (forall j, ~ j <= L -> Ls' j = Ls j) as Hout.
  { intros j Hj. unfold Ls'. by rewrite decide_False. }
  assert (forall j q, q ∈ Ls j -> q ∈ Ls' j) as Hmono.
  { intros j q Hq. destruct (decide (j <= L)) as [Hj|Hj].
    - destruct (Hin j Hj) as (P & B & HL & HL' & _). rewrite HL'.
      rewrite HL in Hq.
      apply elem_of_app in Hq as [?|?]; apply elem_of_app;
        [by left|right; by right].
    - by rewrite Hout. }
  assert (forall j q, q ∈ Ls' j -> q = new \/ q ∈ Ls j) as Hrev.
  { intros j q Hq. destruct (decide (j <= L)) as [Hj|Hj].
    - destruct (Hin j Hj) as (P & B & HL & HL' & _). rewrite HL' in Hq.
      rewrite HL.
      apply elem_of_app in Hq as [?|[->|?]%elem_of_cons]; [|by left|];
        right; apply elem_of_app; [by left|by right].
    - rewrite Hout in Hq by done. by right. }
  assert (forall j, new ∉ hd :: Ls j) as Hfresh.
  { intros j Hn. apply inv_in_valid in Hn. unfold new in Hn. lia. }
  exists Ls'. constructor; simpl.
  - intros j. destruct (decide (j <= L)) as [Hj|Hj].
    + destruct (Hin j Hj) as (P & B & HL & HL' & Hu). rewrite HL'.
      apply (chain_splice h0).
      * apply (chain_ext h).
        { intros q Hq. apply fwd_alloc_old. apply (inv_in_valid j).
          by rewrite HL. }
        rewrite <- HL. apply (inv_chain _ _ _ HInv).
      * rewrite <- HL. apply (inv_nodup _ _ _ HInv).
      * rewrite <- HL. apply Hfresh.
      * intros q. rewrite Hf. rewrite decide_True by lia. by rewrite Hu.
    + rewrite Hout by done.
      apply (chain_ext h); [|apply (inv_chain _ _ _ HInv)].
      intros q Hq. rewrite Hf. rewrite decide_False by lia.
      apply fwd_alloc_old. by apply (inv_in_valid j).
  - intros j Hj. rewrite Hout by lia. apply (inv_top _ _ _ HInv). lia.
  - intros j p Hp. destruct (Hrev _ _ Hp) as [->|Hq].
    + destruct (decide (S j <= L)).
      * destruct (Hin j) as (P & B & _ & -> & _); [lia|].
        apply elem_of_app. right. left.
      * rewrite Hout in Hp by done. exfalso. apply (Hfresh (S j)). by right.
    + apply Hmono. by apply (inv_sub _ _ _ HInv).
  - intros j. destruct (decide (j <= L)).
    + destruct (Hin j) as (P & B & HL & -> & _); [done|].
      pose proof (inv_nodup _ _ _ HInv j) as Hnd. fold hd in Hnd. rewrite HL in Hnd.
      pose proof (Hfresh j) as Hfr. rewrite HL in Hfr.
      apply NoDup_cons in Hnd as [Hhd Hnd]. apply NoDup_cons. split.
      * intros [Hx|[->|Hx]%elem_of_cons]%elem_of_app.
        -- apply Hhd, elem_of_app; by left.
        -- apply Hfr; left.
        -- apply Hhd, elem_of_app; by right.
      * apply NoDup_app in Hnd as (HP' & Hdisj & HB').
        apply NoDup_app. split; [done|]. split.
        -- intros x Hx [->|Hx']%elem_of_cons.
           ++ apply Hfr. right. apply elem_of_app. by left.
           ++ by apply (Hdisj x).
        -- apply NoDup_cons. split; [|done].
           intros Hx. apply Hfr. right. apply elem_of_app. by right.
    + rewrite Hout by done. apply (inv_nodup _ _ _ HInv).
  - intros j. rewrite Hlen, Hlen0.
    pose proof (inv_len _ _ _ HInv j) as Hl. fold h in Hl.
    destruct (decide (j <= L)).
    + destruct (Hin j) as (P & B & HL & -> & _); [done|].
      rewrite HL in Hl. rewrite length_app in *. simpl. lia.
    + rewrite Hout by done. lia.
  - rewrite Hlen, Hlen0. pose proof (inv_hd _ _ _ HInv) as Hh. fold h in Hh. lia.
  - unfold Ls'. rewrite decide_True by lia. rewrite Hu0, HL0.
    rewrite link_split
      by (rewrite <- HL0; apply (inv_nodup _ _ _ HInv)).
    apply Forall2_app; [|apply Forall2_cons; split].
    + eapply Forall2_impl; [exact HP|]. intros q it Hq. simpl in Hq.
      rewrite Hit. by apply item_at_alloc_Some.
    + rewrite Hit. unfold item_at, h0, new.
      rewrite lookup_app_r by lia. by rewrite Nat.sub_diag.
    + eapply Forall2_impl; [exact HB|]. intros q it Hq. simpl in Hq.
      rewrite Hit. by apply item_at_alloc_Some.
  - exact Hsorted.
Qed.

End Insert.

Section InsertScore.
Local Open Scope nat_scope.

Lemma precedes_before n sd z z' u' g' :
  IScoreDetails.score sd = Int z ->
  item_of n = Some (z', u', g') ->
  SkipList.precedes n sd = before z' u' z (IScoreDetails.user_id sd).
Proof.
  unfold item_of, SkipList.precedes, before. intros Hz Hn.
  destruct (SkipListNode.score n) eqn:E; try done.
  injection Hn as ? ? ?; subst. by rewrite Hz.
Qed.

Lemma item_at_node h q it :
  item_at h q = Some it -> exists n, h !! q = Some n /\ item_of n = Some it.
Proof. unfold item_at. destruct (h !! q) as [n|]; [|done]. by exists n. Qed.

(** Everything in front of the node where the search stops comes before
    the new key. *)
Lemma prefix_before h sd z P itsP : forall d itsB,
  Forall2 (fun p it => item_at h p = Some it) P itsP ->
  StronglySorted item_lt (itsP ++ itsB) ->
  P <> [] ->
  node_precedes h (last_from d P) sd ->
  IScoreDetails.score sd = Int z ->
  Forall (fun it =>
    before (item_score it) (item_user it) z (IScoreDetails.user_id sd) = true)
    itsP.
Proof.
  intros d itsB HP. revert d.
  induction HP as [|q [[zq uq] gq] P' its' Hq HP' IH];
    intros d Hs Hne Hprec Hz; [done|].
  apply StronglySorted_inv in Hs as [Hs Hall]. simpl in Hprec.
  destruct HP' as [|q2 [[z2 u2] g2] P'' its'' Hq2 HP''].
  - constructor; [|done]. simpl in Hprec.
    destruct Hprec as (n & Hn & Hp).
    apply item_at_node in Hq as (n' & Hn' & Hit).
    assert (n' = n) as -> by congruence.
    by rewrite (precedes_before _ _ _ _ _ _ Hz Hit) in Hp.
  - assert (Forall (fun it =>
      before (item_score it) (item_user it) z (IScoreDetails.user_id sd) = true)
      ((z2, u2, g2) :: its'')) as Hrest.
    { by apply (IH q). }
    constructor; [|done].
    apply Forall_cons in Hrest as [H2 _]. apply Forall_cons in Hall as [H12 _].
    unfold item_lt, item_score, item_user in *; simpl in *.
    by eapply before_trans.
Qed.

Lemma item_at_set_score_ne h b nb s q :
  q <> b -> item_at (<[b := SkipListNode.set_score s nb]> h) q = item_at h q.
Proof. intros. unfold item_at. by rewrite list_lookup_insert_ne. Qed.

Lemma items_set_score_other h b nb s L its :
  Forall2 (fun p it => item_at h p = Some it) L its ->
  b ∉ L ->
  Forall2 (fun p it =>
    item_at (<[b := SkipListNode.set_score s nb]> h) p = Some it) L its.
Proof.
  induction 1 as [|q it L' its' Hq HL IH]; intros Hb; constructor.
  - rewrite item_at_set_score_ne; [done|]. intros ->. apply Hb. left.
  - apply IH. intros Hin. apply Hb. by right.
Qed.

Context (sl : SkipList.t) (Ls : nat -> list ptr) (its : list item).
Context (HInv : Inv_at sl Ls its).
Let h := SkipList.heap_of sl.
Let hd := SkipList.header sl.

(** The in-place branch: the node in front of which the search stopped
    takes the new score. *)
Lemma update_inv P0 b B' itsP itsB' nb zb ub gb z :
  Ls 0 = P0 ++ b :: B' ->
  h !! b = Some nb ->
  item_of nb = Some (zb, ub, gb) ->
  Forall2 (fun p it => item_at h p = Some it) P0 itsP ->
  Forall2 (fun p it => item_at h p = Some it) B' itsB' ->
  StronglySorted item_lt (itsP ++ (z, ub, gb) :: itsB') ->
  Inv (SkipList.mk (<[b := SkipListNode.set_score (Int z) nb]> h) hd
         (SkipList.level sl) (SkipList.maxLevel sl))
      (itsP ++ (z, ub, gb) :: itsB').
Proof using HInv.
  intros HL0 Hnb Hit HP HB Hsorted.
  pose proof (inv_nodup _ _ _ HInv 0) as Hnd. rewrite HL0 in Hnd.
  apply NoDup_cons in Hnd as [_ Hnd].
  apply NoDup_app in Hnd as (_ & Hdisj & Hnd).
  apply NoDup_cons in Hnd as [HbB _].
  exists Ls. constructor; simpl.
  - intros i. apply (chain_ext h); [|apply (inv_chain _ _ _ HInv)].
    intros q _. by apply fwd_set_score.
  - apply (inv_top _ _ _ HInv).
  - apply (inv_sub _ _ _ HInv).
  - apply (inv_nodup _ _ _ HInv).
  - intros i. rewrite length_insert. apply (inv_len _ _ _ HInv).
  - rewrite length_insert. apply (inv_hd _ _ _ HInv).
  - rewrite HL0. apply Forall2_app; [|apply Forall2_cons; split].
    + apply items_set_score_other; [done|].
      intros Hin. apply (Hdisj b Hin). left.
    + unfold item_at.
      rewrite list_lookup_insert_eq by (by eapply lookup_lt_Some).
      unfold item_of in *. simpl.
      destruct (SkipListNode.score nb); try done.
      injection Hit as ? ? ?; by subst.
    + by apply items_set_score_other.
  - exact Hsorted.
Qed.

Lemma insertNode_inv rnd sd z upd P0 B0 itsP itsB :
  IScoreDetails.score sd = Int z ->
  (forall j, j <= SkipList.level sl ->
     exists P B, Ls j = P ++ B /\ js_get upd j = Some (last_from hd P)) ->
  Ls 0 = P0 ++ B0 ->
  js_get upd 0 = Some (last_from hd P0) ->
  Forall2 (fun p it => item_at h p = Some it) P0 itsP ->
  Forall2 (fun p it => item_at h p = Some it) B0 itsB ->
  StronglySorted item_lt
    (itsP ++ (z, IScoreDetails.user_id sd, IScoreDetails.game_id sd) :: itsB) ->
  exists sl', SkipList.insertNode rnd sd sl upd = Normal sl'
    /\ Inv sl'
         (itsP ++ (z, IScoreDetails.user_id sd, IScoreDetails.game_id sd) :: itsB).
Proof using HInv.
  intros Hz Hlow HL0 Hu0 HP HB Hsorted. unfold SkipList.insertNode.
  set (L := SkipList.randomLevel sl rnd). rewrite Hz.
  edestruct (insert_new_inv sl Ls its HInv L) as (h' & Hsp & Hinv');
    [ | exact HL0 | | exact HP | exact HB | exact Hsorted | | |
      fold h; rewrite Hsp; simpl; eexists; split; [reflexivity|exact Hinv'] ].
  - intros j Hj. destruct (Nat.ltb_spec (SkipList.level sl) L) as [Hlt|Hge].
    + destruct (decide (j <= SkipList.level sl)) as [Hjl|Hjl].
      * destruct (Hlow j Hjl) as (P & B & HL & Hu). exists P, B.
        split; [done|]. rewrite raise_spec. by rewrite decide_False by lia.
      * exists [], []. split; [apply (inv_top _ _ _ HInv); lia|].
        rewrite raise_spec. by rewrite decide_True by lia.
    + apply Hlow. lia.
  - destruct (Nat.ltb_spec (SkipList.level sl) L); [|done].
    rewrite raise_spec. by rewrite decide_False by lia.
  - destruct (Nat.ltb_spec (SkipList.level sl) L); lia.
  - destruct (Nat.ltb_spec (SkipList.level sl) L); lia.
Qed.

End InsertScore.

(** [insertScore] with an integer score always returns, and on level 0 it
    is [upsert], whatever levels the oracle picks. *)
Lemma insertScore_refines sl its rnd sd z :
  Inv sl its ->
  IScoreDetails.score sd = Int z ->
  exists sl', SkipList.insertScore rnd sd sl = Normal sl'
    /\ Inv sl' (upsert z (IScoreDetails.user_id sd) (IScoreDetails.game_id sd) its).
Proof.
  intros [Ls HInv] Hz. unfold SkipList.insertScore.
  destruct (search_spec sl Ls its HInv sd (SkipList.level sl)
              (SkipList.header sl) (replicate (SkipList.maxLevel sl + 1) None))
    as (c & upd & Hs & Hlow & _ & (P0 & B0 & HL0 & Hc & Hu0 & Hcp & HB)).
  { by exists [], (Ls (SkipList.level sl)). }
  { by left. }
  rewrite Hs. simpl.
  pose proof (inv_chain _ _ _ HInv 0%nat) as Hch. rewrite HL0 in Hch.
  apply chain_last in Hch. rewrite <- Hc in Hch.
  pose proof (inv_items _ _ _ HInv) as Hits. rewrite HL0 in Hits.
  apply Forall2_app_inv_l in Hits as (itsP & itsB & HP & HBi & ->).
  pose proof (upsert_sorted z (IScoreDetails.user_id sd)
                (IScoreDetails.game_id sd) _ (inv_sorted _ _ _ HInv)) as Hsort.
  assert (Forall (fun it =>
            before (item_score it) (item_user it) z (IScoreDetails.user_id sd)
            = true) itsP) as Hpre.
  { destruct P0 as [|p P0]; [by apply Forall2_nil_inv_l in HP as ->|].
    eapply (prefix_before _ sd z (p :: P0) itsP (SkipList.header sl) itsB);
      try done; [apply (inv_sorted _ _ _ HInv)|].
    rewrite <- Hc. destruct Hcp as [Hh|]; [|done]. exfalso.
    apply (inv_hd_notin sl Ls _ HInv 0%nat). rewrite <- Hh, Hc, HL0.
    apply elem_of_app. left. by apply last_from_in. }
  rewrite upsert_app in Hsort |- * by done.
  rewrite Hc in Hu0.
  destruct HBi as [|b [[zb ub] gb] B' itsB' Hb HB'].
  - simpl in Hch. rewrite Hch.
    by apply (insertNode_inv sl Ls _ HInv rnd sd z upd P0 []).
  - destruct Hch as [Hnx _]. rewrite Hnx.
    apply item_at_node in Hb as Hb'. destruct Hb' as (nb & Hnb & Hitb).
    unfold deref. rewrite Hnb. simpl.
    destruct HB as (nb' & Hnb' & Hstop).
    assert (nb' = nb) as -> by congruence.
    rewrite (precedes_before _ _ _ _ _ _ Hz Hitb) in Hstop.
    simpl in Hsort |- *. rewrite Hstop in Hsort |- *.
    assert (SkipListNode.user_id nb = ub) as Hub.
    { unfold item_of in Hitb. destruct (SkipListNode.score nb); try done.
      by injection Hitb as ? ? ?. }
    rewrite Hub.
    destruct (String.eqb ub (IScoreDetails.user_id sd)) eqn:Hsame.
    + unfold store_score, deref. rewrite Hnb. simpl. rewrite Hz.
      eexists. split; [done|].
      by apply (update_inv sl Ls _ HInv P0 b B' itsP itsB' nb zb ub gb z).
    + apply (insertNode_inv sl Ls _ HInv rnd sd z upd P0 (b :: B')); try done.
      by constructor.
Qed.

Lemma Inv_new : Inv SkipList.new [].
Proof.
  exists (fun _ => []). constructor; simpl; try done.
  - intros i. unfold fwd. simpl. apply (js_get_replicate 21).
  - intros i. apply NoDup_singleton.
  - lia.
  - lia.
  - constructor.
Qed.

Lemma reachable_Inv sl : reachable sl -> exists its, Inv sl its.
Proof.
  induction 1 as [|sl rnd sd z sl' _ [its IH] Hz Hins]; [exists []; apply Inv_new|].
  destruct (insertScore_refines sl its rnd sd z IH Hz) as (sl'' & Hins' & Hinv).
  rewrite Hins in Hins'. injection Hins' as <-. eauto.
Qed.

(** ** The queries read the level-0 sequence *)

Section Queries.
Local Open Scope nat_scope.

Lemma getTopK_loop_spec h k : forall L its p rank result fuel,
  chain h 0 p L ->
  Forall2 (fun p it => item_at h p = Some it) L its ->
  (Z.of_nat (length result) + Z.of_nat fuel >= k)%Z ->
  SkipList.getTopK_loop fuel h (fwd h p 0) rank result k
  = Normal (result ++ rows_from rank
              (take (Z.to_nat (k - Z.of_nat (length result))) its)).
Proof.
  induction L as [|q L IH]; intros its p rank result fuel Hc Hits Hfuel.
  - simpl in Hc. rewrite Hc. apply Forall2_nil_inv_l in Hits as ->.
    rewrite take_nil. destruct fuel; simpl; by rewrite app_nil_r.
  - destruct Hc as [Hq Hc]. rewrite Hq.
    apply Forall2_cons_inv_l in Hits as ([[zq uq] gq] & its' & Hit & Hits & ->).
    destruct fuel as [|fuel]; cbn [SkipList.getTopK_loop];
      destruct (Z.ltb_spec (Z.of_nat (length result)) k) as [Hlt|Hge]; [lia| | |].
    2: { apply item_at_node in Hit as (n & Hn & Hitn).
      unfold deref. rewrite Hn. simpl.
      assert (js_get (SkipListNode.forward n) 0 = fwd h q 0) as ->.
      { unfold fwd. by rewrite Hn. }
      rewrite (IH its' q) by (try done; rewrite length_app; simpl; lia).
      rewrite length_app. simpl. rewrite <- app_assoc. f_equal.
      replace (Z.to_nat (k - Z.of_nat (length result)))
        with (S (Z.to_nat (k - Z.of_nat (length result + 1)))) by lia.
      simpl. f_equal.
      unfold SkipList.row, item_of in *.
      destruct (SkipListNode.score n); try done. by injection Hitn as -> -> ->. }
    all: replace (Z.to_nat (k - Z.of_nat (length result))) with 0 by lia;
      simpl; by rewrite app_nil_r.
Qed.

Lemma getTopK_spec sl its k :
  Inv sl its ->
  SkipList.getTopK sl k = Normal (rows_from 1 (take (Z.to_nat k) its)).
Proof.
  intros [Ls HInv]. unfold SkipList.getTopK.
  rewrite (getTopK_loop_spec _ k (Ls 0) its); simpl.
  - by rewrite Z.sub_0_r.
  - apply (inv_chain _ _ _ HInv).
  - apply (inv_items _ _ _ HInv).
  - lia.
Qed.

Lemma getRank_loop_spec h u : forall L its p rank fuel,
  chain h 0 p L ->
  Forall2 (fun p it => item_at h p = Some it) L its ->
  length L <= fuel ->
  SkipList.getRank_loop fuel h (fwd h p 0) rank u = Normal (rank_from rank u its).
Proof.
  induction L as [|q L IH]; intros its p rank fuel Hc Hits Hfuel.
  - simpl in Hc. rewrite Hc. apply Forall2_nil_inv_l in Hits as ->.
    by destruct fuel.
  - destruct Hc as [Hq Hc]. rewrite Hq.
    apply Forall2_cons_inv_l in Hits as ([[zq uq] gq] & its' & Hit & Hits & ->).
    destruct fuel as [|fuel]; [simpl in Hfuel; lia|].
    apply item_at_node in Hit as (n & Hn & Hitn).
    simpl. unfold deref. rewrite Hn. simpl.
    assert (SkipListNode.user_id n = uq) as ->.
    { unfold item_of in Hitn. destruct (SkipListNode.score n); try done.
      by injection Hitn as ? ? ?. }
    unfold item_user. simpl. destruct (String.eqb uq u); [done|].
    assert (js_get (SkipListNode.forward n) 0 = fwd h q 0) as ->.
    { unfold fwd. by rewrite Hn. }
    apply (IH its' q); try done. simpl in Hfuel. lia.
Qed.

Lemma getRank_spec sl its u :
  Inv sl its -> SkipList.getRank sl u = Normal (rank_from 1 u its).
Proof.
  intros [Ls HInv]. unfold SkipList.getRank.
  apply (getRank_loop_spec _ u (Ls 0)).
  - apply (inv_chain _ _ _ HInv).
  - apply (inv_items _ _ _ HInv).
  - pose proof (inv_len _ _ _ HInv 0). lia.
Qed.

Lemma getScore_loop_spec h u : forall L its p fuel,
  chain h 0 p L ->
  Forall2 (fun p it => item_at h p = Some it) L its ->
  length L <= fuel ->
  SkipList.getScore_loop fuel h (fwd h p 0) u = Normal (score_in u its).
Proof.
  induction L as [|q L IH]; intros its p fuel Hc Hits Hfuel.
  - simpl in Hc. rewrite Hc. apply Forall2_nil_inv_l in Hits as ->.
    by destruct fuel.
  - destruct Hc as [Hq Hc]. rewrite Hq.
    apply Forall2_cons_inv_l in Hits as ([[zq uq] gq] & its' & Hit & Hits & ->).
    destruct fuel as [|fuel]; [simpl in Hfuel; lia|].
    apply item_at_node in Hit as (n & Hn & Hitn).
    simpl. unfold deref. rewrite Hn. simpl.
    assert (SkipListNode.user_id n = uq /\ SkipListNode.score n = Int zq)
      as [-> ->].
    { unfold item_of in Hitn. destruct (SkipListNode.score n); try done.
      by injection Hitn as -> ? ?. }
    unfold item_user, item_score. simpl. destruct (String.eqb uq u); [done|].
    assert (js_get (SkipListNode.forward n) 0 = fwd h q 0) as ->.
    { unfold fwd. by rewrite Hn. }
    apply (IH its' q); try done. simpl in Hfuel. lia.
Qed.

Lemma getScore_spec sl its u :
  Inv sl its -> SkipList.getScore sl u = Normal (score_in u its).
Proof.
  intros [Ls HInv]. unfold SkipList.getScore.
  apply (getScore_loop_spec _ u (Ls 0)).
  - apply (inv_chain _ _ _ HInv).
  - apply (inv_items _ _ _ HInv).
  - pose proof (inv_len _ _ _ HInv 0). lia.
Qed.

End Queries.

(** ** Ranking order of [getTopK] *)

Lemma sorted_lookup its :
  StronglySorted item_lt its ->
  forall (i j : nat) a b,
    (i < j)%nat -> its !! i = Some a -> its !! j = Some b -> item_lt a b.
Proof.
  induction 1 as [|x its Hs IH Hall]; intros i j a b Hij Ha Hb; [done|].
  destruct j as [|j]; [lia|]. destruct i as [|i]; simpl in *.
  - injection Ha as <-. by eapply (Forall_lookup_1 _ _ _ _ Hall).
  - apply (IH i j); [lia|done..].
Qed.

Lemma rows_from_lookup its : forall rank (i : nat) r,
  rows_from rank its !! i = Some r ->
  exists z u g, its !! i = Some (z, u, g)
    /\ r = ILeaderboard.mk u (Int z) (rank + Z.of_nat i) g.
Proof.
  induction its as [|[[z u] g] its IH]; intros rank i r Hr; [done|].
  destruct i as [|i]; simpl in *.
  - injection Hr as <-. exists z, u, g. by rewrite Z.add_0_r.
  - destruct (IH _ _ _ Hr) as (z' & u' & g' & Hi & ->).
    exists z', u', g'. split; [done|]. f_equal. lia.
Qed.

Lemma rows_ranked its n :
  StronglySorted item_lt its -> ranked_order (rows_from 1 (take n its)).
Proof.
  intros Hs i j r1 r2 Hij H1 H2.
  apply rows_from_lookup in H1 as (z1 & u1 & g1 & H1 & ->).
  apply rows_from_lookup in H2 as (z2 & u2 & g2 & H2 & ->).
  apply lookup_take_Some in H1 as [H1 _]. apply lookup_take_Some in H2 as [H2 _].
  pose proof (sorted_lookup its Hs i j _ _ Hij H1 H2) as Hlt.
  exists z1, z2. simpl. split; [done|]. split; [done|].
  unfold item_lt, before, item_score, item_user in Hlt. simpl in Hlt.
  apply orb_true_iff in Hlt as [Hlt|Hlt].
  - apply Z.ltb_lt in Hlt. split; lia.
  - apply andb_true_iff in Hlt as [Heq Hu]. apply Z.eqb_eq in Heq. split; [lia|done].
Qed.

(** C6. In every state of the skip list reachable by [insertScore] with
    integer scores, and for every [k], [getTopK k] returns, and its rows
    are in non-increasing score order with equal scores in ascending
    order of user; in particular, after the upserts ([b], 5) then ([a], 5),
    whatever levels are drawn, [getTopK 2] is [(a, 5, 1); (b, 5, 2)]. *)
Theorem topK_ranking_order (sl : SkipList.t) (k : Z) (Hreach : reachable sl) :
  (exists rows, SkipList.getTopK sl k = Normal rows /\ ranked_order rows)
  /\ (forall rnd1 rnd2 g c1 c2,
        exists sl1 sl2,
          SkipList.insertScore rnd1 (IScoreDetails.mk "b" g (Int 5) c1)
            SkipList.new = Normal sl1
          /\ SkipList.insertScore rnd2 (IScoreDetails.mk "a" g (Int 5) c2) sl1
             = Normal sl2
          /\ SkipList.getTopK sl2 2
             = Normal [ILeaderboard.mk "a" (Int 5) 1 g;
                       ILeaderboard.mk "b" (Int 5) 2 g]).
Proof.
  split.
  - destruct (reachable_Inv sl Hreach) as [its Hinv].
    exists (rows_from 1 (take (Z.to_nat k) its)).
    split; [by apply getTopK_spec|].
    apply rows_ranked. destruct Hinv as [Ls H]. apply (inv_sorted _ _ _ H).
  - intros rnd1 rnd2 g c1 c2.
    destruct (insertScore_refines SkipList.new [] rnd1
                (IScoreDetails.mk "b" g (Int 5) c1) 5 Inv_new eq_refl)
      as (sl1 & H1 & Hinv1).
    destruct (insertScore_refines sl1 _ rnd2
                (IScoreDetails.mk "a" g (Int 5) c2) 5 Hinv1 eq_refl)
      as (sl2 & H2 & Hinv2).
    exists sl1, sl2. split; [done|]. split; [done|].
    by rewrite (getTopK_spec _ _ 2 Hinv2).
Qed.

Lemma tie_state_reachable : reachable tie_state.
Proof.
  eapply (reach_insert _ (fun _ => false)
            (IScoreDetails.mk "a" (Some "g") (Int 5) (mkDate (Int 1))) 5).
  - eapply (reach_insert _ (fun _ => false)
              (IScoreDetails.mk "b" (Some "g") (Int 5) (mkDate (Int 0))) 5).
    + apply reach_new.
    + reflexivity.
    + vm_compute. reflexivity.
  - reflexivity.
  - vm_compute. reflexivity.
Defined.

Lemma topK_ranking_order_witness :
  (exists rows, SkipList.getTopK tie_state 2 = Normal rows /\ ranked_order rows)
  /\ (forall rnd1 rnd2 g c1 c2,
        exists sl1 sl2,
          SkipList.insertScore rnd1 (IScoreDetails.mk "b" g (Int 5) c1)
            SkipList.new = Normal sl1
          /\ SkipList.insertScore rnd2 (IScoreDetails.mk "a" g (Int 5) c2) sl1
             = Normal sl2
          /\ SkipList.getTopK sl2 2
             = Normal [ILeaderboard.mk "a" (Int 5) 1 g;
                       ILeaderboard.mk "b" (Int 5) 2 g]).
Proof.
  apply (topK_ranking_order tie_state 2). apply tie_state_reachable.
Defined.

(** ** Overwriting a score *)

(** C1. The check evaluates [insertScore] on the overwrite scenario of the
    specification: ([u1], 10), ([u2], 20), ([u3], 20), then ([u1], 25).
    Whatever levels are drawn, every call returns and level 0 then holds
    four nodes, two of them for [u1]: the search stops in front of [u2],
    which is not [u1]'s node, so a second node is linked. *)
Theorem overwrite_leaves_two_nodes rnd1 rnd2 rnd3 rnd4 g c1 c2 c3 c4 :
  exists sl1 sl2 sl3 sl4,
    SkipList.insertScore rnd1 (IScoreDetails.mk "u1" g (Int 10) c1) SkipList.new
    = Normal sl1
    /\ SkipList.insertScore rnd2 (IScoreDetails.mk "u2" g (Int 20) c2) sl1
       = Normal sl2
    /\ SkipList.insertScore rnd3 (IScoreDetails.mk "u3" g (Int 20) c3) sl2
       = Normal sl3
    /\ SkipList.insertScore rnd4 (IScoreDetails.mk "u1" g (Int 25) c4) sl3
       = Normal sl4
    /\ Inv sl4 [(25, "u1", g); (20, "u2", g); (20, "u3", g); (10, "u1", g)]
    /\ SkipList.getTopK sl4 4
       = Normal [ILeaderboard.mk "u1" (Int 25) 1 g;
                 ILeaderboard.mk "u2" (Int 20) 2 g;
                 ILeaderboard.mk "u3" (Int 20) 3 g;
                 ILeaderboard.mk "u1" (Int 10) 4 g].
Proof.
  destruct (insertScore_refines SkipList.new [] rnd1
              (IScoreDetails.mk "u1" g (Int 10) c1) 10 Inv_new eq_refl)
    as (sl1 & H1 & Hinv1).
  destruct (insertScore_refines sl1 _ rnd2
              (IScoreDetails.mk "u2" g (Int 20) c2) 20 Hinv1 eq_refl)
    as (sl2 & H2 & Hinv2).
  destruct (insertScore_refines sl2 _ rnd3
              (IScoreDetails.mk "u3" g (Int 20) c3) 20 Hinv2 eq_refl)
    as (sl3 & H3 & Hinv3).
  destruct (insertScore_refines sl3 _ rnd4
              (IScoreDetails.mk "u1" g (Int 25) c4) 25 Hinv3 eq_refl)
    as (sl4 & H4 & Hinv4).
  exists sl1, sl2, sl3, sl4. repeat (split; [done|]).
  by rewrite (getTopK_spec _ _ 4 Hinv4).
Qed.

(** ** The engine *)

Lemma append_fulfilled render entry w fs :
  WriteAheadLog.writeQueue w = WriteAheadLog.Fulfilled ->
  WriteAheadLog.append render None entry w fs
  = (WriteAheadLog.Fulfilled, w,
     <[WriteAheadLog.walPath w :=
         default "" (fs !! WriteAheadLog.walPath w)
         +:+ WriteAheadLog.logLine render entry]> fs).
Proof.
  destruct w as [q path]. simpl. intros ->. reflexivity.
Qed.

Lemma updateScore_resolves render rnd sd e fs its z :
  Inv (LeaderboardEngine.skipList e) its ->
  IScoreDetails.score sd = Int z ->
  WriteAheadLog.writeQueue (LeaderboardEngine.wal e) = WriteAheadLog.Fulfilled ->
  exists sl',
    LeaderboardEngine.updateScore render None rnd sd e fs
    = (LeaderboardEngine.Resolved,
       LeaderboardEngine.mk (LeaderboardEngine.gameId e) sl'
         (LeaderboardEngine.wal e),
       <[WriteAheadLog.walPath (LeaderboardEngine.wal e) :=
           default "" (fs !! WriteAheadLog.walPath (LeaderboardEngine.wal e))
           +:+ WriteAheadLog.logLine render sd]> fs)
    /\ Inv sl' (upsert z (IScoreDetails.user_id sd) (IScoreDetails.game_id sd) its).
Proof.
  intros Hinv Hz Hq. unfold LeaderboardEngine.updateScore.
  rewrite (append_fulfilled _ _ _ _ Hq).
  destruct (insertScore_refines _ _ rnd sd z Hinv Hz) as (sl' & -> & Hinv').
  by exists sl'.
Qed.

(** Two acknowledged writes for one user, the second with the lower
    score, on a fresh engine: level 0 keeps both. *)
Lemma lowered_score_state render rnd1 rnd2 c1 c2 fs :
  exists e1 fs1 e2 fs2,
    LeaderboardEngine.updateScore render None rnd1
      (IScoreDetails.mk "u1" (Some "g") (Int 30) c1)
      (LeaderboardEngine.new "g") fs
    = (LeaderboardEngine.Resolved, e1, fs1)
    /\ LeaderboardEngine.updateScore render None rnd2
         (IScoreDetails.mk "u1" (Some "g") (Int 10) c2) e1 fs1
       = (LeaderboardEngine.Resolved, e2, fs2)
    /\ Inv (LeaderboardEngine.skipList e2)
         [(30, "u1", Some "g"); (10, "u1", Some "g")].
Proof.
  destruct (updateScore_resolves render rnd1
              (IScoreDetails.mk "u1" (Some "g") (Int 30) c1)
              (LeaderboardEngine.new "g") fs [] 30 Inv_new eq_refl eq_refl)
    as (sl1 & H1 & Hinv1).
  destruct (updateScore_resolves render rnd2
              (IScoreDetails.mk "u1" (Some "g") (Int 10) c2)
              (LeaderboardEngine.mk "g" sl1 (WriteAheadLog.new "g"))
              (<["data/g.wal" := default "" (fs !! "data/g.wal")
                  +:+ WriteAheadLog.logLine render
                        (IScoreDetails.mk "u1" (Some "g") (Int 30) c1)]> fs)
              _ 10 Hinv1 eq_refl eq_refl)
    as (sl2 & H2 & Hinv2).
  eexists _, _, _, _. split; [exact H1|]. split; [exact H2|]. exact Hinv2.
Qed.

(** C2. The check evaluates two acknowledged [updateScore] calls for
    [u1] on a fresh engine, 30 then 10: [getUserScore] answers 30, the
    score of the earlier write, because the later write sits in a second
    node further down level 0. *)
Theorem lowered_score_not_served render rnd1 rnd2 c1 c2 fs :
  exists e1 fs1 e2 fs2,
    LeaderboardEngine.updateScore render None rnd1
      (IScoreDetails.mk "u1" (Some "g") (Int 30) c1)
      (LeaderboardEngine.new "g") fs
    = (LeaderboardEngine.Resolved, e1, fs1)
    /\ LeaderboardEngine.updateScore render None rnd2
         (IScoreDetails.mk "u1" (Some "g") (Int 10) c2) e1 fs1
       = (LeaderboardEngine.Resolved, e2, fs2)
    /\ LeaderboardEngine.getUserScore e2 "u1" = Normal (Int 30).
Proof.
  destruct (lowered_score_state render rnd1 rnd2 c1 c2 fs)
    as (e1 & fs1 & e2 & fs2 & H1 & H2 & Hinv).
  exists e1, fs1, e2, fs2. split; [done|]. split; [done|].
  unfold LeaderboardEngine.getUserScore. by rewrite (getScore_spec _ _ "u1" Hinv).
Qed.

(** C7. The check evaluates the same two writes: one user, and
    [getTopK 2] has two rows ranked 1 and 2, both for [u1], while
    [getUserRank] answers 1; the row of rank 2 names a user whose rank
    is not 2. *)
Theorem rank_of_second_node render rnd1 rnd2 c1 c2 fs :
  exists e1 fs1 e2 fs2,
    LeaderboardEngine.updateScore render None rnd1
      (IScoreDetails.mk "u1" (Some "g") (Int 30) c1)
      (LeaderboardEngine.new "g") fs
    = (LeaderboardEngine.Resolved, e1, fs1)
    /\ LeaderboardEngine.updateScore render None rnd2
         (IScoreDetails.mk "u1" (Some "g") (Int 10) c2) e1 fs1
       = (LeaderboardEngine.Resolved, e2, fs2)
    /\ LeaderboardEngine.getTopK e2 2
       = Normal [ILeaderboard.mk "u1" (Int 30) 1 (Some "g");
                 ILeaderboard.mk "u1" (Int 10) 2 (Some "g")]
    /\ LeaderboardEngine.getUserRank e2 "u1" = Normal 1.
Proof.
  destruct (lowered_score_state render rnd1 rnd2 c1 c2 fs)
    as (e1 & fs1 & e2 & fs2 & H1 & H2 & Hinv).
  exists e1, fs1, e2, fs2. split; [done|]. split; [done|].
  unfold LeaderboardEngine.getTopK, LeaderboardEngine.getUserRank.
  by rewrite (getTopK_spec _ _ 2 Hinv), (getRank_spec _ _ "u1" Hinv).
Qed.

(** ** Restart *)

(** C3. The check evaluates a crash after one acknowledged write:
    before the crash the engine of game [g] answers 10 for [u1]; the
    engine that [getInstance] builds after the restart answers as an
    empty one does, whatever the log on disk holds, because the
    constructor does not replay it ([recover] has no caller). *)
Theorem restart_forgets_acknowledged_writes render rnd c fs :
  exists p1,
    Process.updateScore render None rnd "g"
      (IScoreDetails.mk "u1" (Some "g") (Int 10) c) (Process.start fs)
    = (LeaderboardEngine.Resolved, p1)
    /\ Process.disk p1 !! "data/g.wal"
       = Some (default "" (fs !! "data/g.wal")
               +:+ WriteAheadLog.logLine render
                     (IScoreDetails.mk "u1" (Some "g") (Int 10) c))
    /\ LeaderboardEngine.getUserScore (Process.shard "g" p1).1 "u1"
       = Normal (Int 10)
    /\ LeaderboardEngine.getTopK (Process.shard "g" p1).1 1
       = Normal [ILeaderboard.mk "u1" (Int 10) 1 (Some "g")]
    /\ LeaderboardEngine.getUserScore
         (Process.shard "g" (Process.restart p1)).1 "u1" = Normal (Int (-1))
    /\ LeaderboardEngine.getUserRank
         (Process.shard "g" (Process.restart p1)).1 "u1" = Normal (-1)
    /\ LeaderboardEngine.getTopK
         (Process.shard "g" (Process.restart p1)).1 1 = Normal [].
Proof.
  unfold Process.updateScore, Process.start, Process.shard,
    LeaderboardEngine.getInstance. simpl. rewrite lookup_empty. simpl.
  destruct (updateScore_resolves render rnd
              (IScoreDetails.mk "u1" (Some "g") (Int 10) c)
              (LeaderboardEngine.new "g") fs [] 10 Inv_new eq_refl eq_refl)
    as (sl1 & H1 & Hinv1).
  rewrite H1. eexists. split; [reflexivity|]. simpl.
  rewrite !lookup_insert_eq. simpl.
  split; [done|].
  unfold LeaderboardEngine.getUserScore, LeaderboardEngine.getTopK. simpl.
  rewrite (getScore_spec _ _ "u1" Hinv1), (getTopK_spec _ _ 1 Hinv1).
  repeat split; reflexivity.
Qed.

(** ** Failing appends *)

(** C8. When the append of the log fails inside [updateScore], the
    promise of [updateScore] rejects with the same reason and the skip
    list of the engine is the one it had before the call. *)
Theorem failed_append_leaves_index render io rnd sd e fs reason w fs'
    (Hfail : WriteAheadLog.append render io sd (LeaderboardEngine.wal e) fs
             = (WriteAheadLog.Rejected reason, w, fs')) :
  exists e',
    LeaderboardEngine.updateScore render io rnd sd e fs
    = (LeaderboardEngine.RejectedWith reason, e', fs')
    /\ LeaderboardEngine.skipList e' = LeaderboardEngine.skipList e
    /\ (forall k, LeaderboardEngine.getTopK e' k = LeaderboardEngine.getTopK e k)
    /\ (forall u, LeaderboardEngine.getUserScore e' u
                  = LeaderboardEngine.getUserScore e u)
    /\ (forall u, LeaderboardEngine.getUserRank e' u
                  = LeaderboardEngine.getUserRank e u).
Proof.
  unfold LeaderboardEngine.updateScore. rewrite Hfail.
  eexists. split; [reflexivity|]. repeat split.
Qed.

Lemma failed_append_leaves_index_witness :
  exists e',
    LeaderboardEngine.updateScore JS.utc_render (Some "ENOSPC")
      (fun _ => false)
      (IScoreDetails.mk "c" (Some "g") (Int 9) (mkDate (Int 2))) tie_engine ∅
    = (LeaderboardEngine.RejectedWith "ENOSPC", e', ∅)
    /\ LeaderboardEngine.skipList e' = LeaderboardEngine.skipList tie_engine
    /\ (forall k, LeaderboardEngine.getTopK e' k
                  = LeaderboardEngine.getTopK tie_engine k)
    /\ (forall u, LeaderboardEngine.getUserScore e' u
                  = LeaderboardEngine.getUserScore tie_engine u)
    /\ (forall u, LeaderboardEngine.getUserRank e' u
                  = LeaderboardEngine.getUserRank tie_engine u).
Proof.
  apply (failed_append_leaves_index JS.utc_render (Some "ENOSPC")
           (fun _ => false)
           (IScoreDetails.mk "c" (Some "g") (Int 9) (mkDate (Int 2)))
           tie_engine ∅ "ENOSPC"
           (WriteAheadLog.mk (WriteAheadLog.Rejected "ENOSPC") "data/g.wal")).
  reflexivity.
Defined.

Lemma append_after_rejection render io entry w fs reason :
  WriteAheadLog.writeQueue w = WriteAheadLog.Rejected reason ->
  WriteAheadLog.append render io entry w fs
  = (WriteAheadLog.Rejected reason, w, fs).
Proof. destruct w as [q path]. simpl. intros ->. reflexivity. Qed.

Lemma appends_after_rejection render reason reqs : forall w fs,
  WriteAheadLog.writeQueue w = WriteAheadLog.Rejected reason ->
  appends render reqs w fs
  = (map (fun _ => WriteAheadLog.Rejected reason) reqs, w, fs).
Proof.
  induction reqs as [|[io entry] reqs IH]; intros w fs Hq; simpl; [done|].
  rewrite (append_after_rejection _ _ _ _ _ _ Hq). by rewrite (IH w fs Hq).
Qed.

(** C10. Once an [append] on a log has been rejected, every later
    [append] on that log, whatever the operating system would answer, is
    rejected with the same reason and leaves the files as they are; so
    does every run of later appends. *)
Theorem rejected_append_poisons_queue render io entry w fs reason w' fs'
    (Hfail : WriteAheadLog.append render io entry w fs
             = (WriteAheadLog.Rejected reason, w', fs')) :
  (forall io2 entry2 fs2,
     WriteAheadLog.append render io2 entry2 w' fs2
     = (WriteAheadLog.Rejected reason, w', fs2))
  /\ (forall reqs fs2,
        appends render reqs w' fs2
        = (map (fun _ => WriteAheadLog.Rejected reason) reqs, w', fs2)).
Proof.
  assert (WriteAheadLog.writeQueue w' = WriteAheadLog.Rejected reason) as Hq.
  { unfold WriteAheadLog.append, WriteAheadLog.then_, WriteAheadLog.appendFile
      in Hfail.
    destruct w as [[|r] path]; destruct io as [err|];
      simpl in Hfail; by simplify_eq. }
  split.
  - intros. by apply append_after_rejection.
  - intros. by apply appends_after_rejection.
Qed.

Lemma rejected_append_poisons_queue_witness :
  (forall io2 entry2 fs2,
     WriteAheadLog.append JS.utc_render io2 entry2
       (WriteAheadLog.mk (WriteAheadLog.Rejected "EIO") "data/g.wal") fs2
     = (WriteAheadLog.Rejected "EIO",
        WriteAheadLog.mk (WriteAheadLog.Rejected "EIO") "data/g.wal", fs2))
  /\ (forall reqs fs2,
        appends JS.utc_render reqs
          (WriteAheadLog.mk (WriteAheadLog.Rejected "EIO") "data/g.wal") fs2
        = (map (fun _ => WriteAheadLog.Rejected "EIO") reqs,
           WriteAheadLog.mk (WriteAheadLog.Rejected "EIO") "data/g.wal", fs2)).
Proof.
  apply (rejected_append_poisons_queue JS.utc_render (Some "EIO")
           (IScoreDetails.mk "u1" (Some "g") (Int 10) (mkDate (Int 0)))
           (WriteAheadLog.new "g") ∅ "EIO" _ ∅).
  reflexivity.
Defined.

(** ** [getTopK] with a count that is not positive *)

(** C9, the claim as stated fails: on an engine with two users,
    [getTopK (-1)] completes normally with the empty list; it is not
    rejected. *)
Lemma topK_negative_not_rejected :
  LeaderboardEngine.getTopK tie_engine (-1) = Normal []
  /\ ~ (exists a, LeaderboardEngine.getTopK tie_engine (-1) = Abrupt a).
Proof.
  split; [reflexivity|]. intros [a Ha]. vm_compute in Ha. discriminate.
Qed.

(** C9, amended. For every engine, whatever its state, [getTopK k] with
    [k <= 0] returns the empty list: [k = 0] gives no rows, and a negative
    [k] is answered the same way instead of being rejected. *)
Theorem topK_nonpositive_empty (e : LeaderboardEngine.t) (k : Z) (Hk : k <= 0) :
  LeaderboardEngine.getTopK e k = Normal [].
Proof.
  unfold LeaderboardEngine.getTopK, SkipList.getTopK.
  replace (Z.to_nat k) with 0%nat by lia.
  destruct (fwd _ _ 0) as [c|]; simpl; [|done].
  destruct (Z.ltb_spec (Z.of_nat 0) k); [lia|done].
Qed.

Lemma topK_nonpositive_empty_witness :
  LeaderboardEngine.getTopK tie_engine (-1) = Normal [].
Proof.
  apply (topK_nonpositive_empty tie_engine (-1)). lia.
Defined.

(** ** Strings *)

Section Strings.











(** *** Decimal numerals *)
















End Strings.

(** ** The records of the log *)

Section Records.

Lemma string_app_assoc (a b c : string) : (a +:+ b) +:+ c = a +:+ (b +:+ c).
Proof.
  induction a as [|x a IH]; [done|].
  change (String x ((a +:+ b) +:+ c) = String x (a +:+ (b +:+ c))).
  by f_equal.
Qed.

Lemma string_app_cons x (a b : string) : String x a +:+ b = String x (a +:+ b).
Proof. reflexivity. Qed.















End Records.

(** * Further properties of the code *)

(** ** Sequences of writes on the skip list *)

Lemma ltb_irrefl s : String.ltb s s = false.
Proof.
  unfold String.ltb. destruct (String.compare s s) eqn:E; try done.
  pose proof (String.compare_antisym s s) as H. rewrite E in H. discriminate.
Qed.

Lemma before_irrefl z u : before z u z u = false.
Proof. unfold before. by rewrite Z.ltb_irrefl, ltb_irrefl, andb_false_r. Qed.

Lemma Inv_sorted sl its : Inv sl its -> StronglySorted item_lt its.
Proof. intros [Ls H]. apply (inv_sorted _ _ _ H). Qed.

Lemma upsertAll_sorted ws : forall its,
  StronglySorted item_lt its -> StronglySorted item_lt (upsertAll ws its).
Proof.
  induction ws as [|w ws IH]; intros its Hs; simpl; [done|].
  by apply IH, upsert_sorted.
Qed.

Lemma insertAll_refines ws : forall sl its,
  Inv sl its ->
  exists sl', insertAll ws sl = Normal sl' /\ Inv sl' (upsertAll ws its).
Proof.
  induction ws as [|w ws IH]; intros sl its Hinv; simpl; [by exists sl|].
  destruct (insertScore_refines sl its (wr_rnd w) (entry_of w) (wr_score w)
              Hinv eq_refl) as (sl1 & -> & Hinv1).
  simpl. by apply IH.
Qed.

Lemma insertAll_new ws :
  exists sl, insertAll ws SkipList.new = Normal sl /\ Inv sl (upsertAll ws []).
Proof. apply insertAll_refines, Inv_new. Qed.

Lemma rank_from_index u its : forall k,
  rank_from k u its
  = match index_of u its with
    | Some i => k + Z.of_nat i
    | None => -1
    end.
Proof.
  induction its as [|it its IH]; intros k; simpl; [done|].
  destruct (String.eqb (item_user it) u); [lia|].
  rewrite IH. destruct (index_of u its); lia.
Qed.

Lemma score_in_first u its :
  score_in u its
  = match first_score u its with
    | Some z => Int z
    | None => Int (-1)
    end.
Proof.
  induction its as [|it its IH]; simpl; [done|].
  by destruct (String.eqb (item_user it) u).
Qed.

Lemma index_first u its :
  match index_of u its with
  | Some i => exists z g, its !! i = Some (z, u, g) /\ first_score u its = Some z
  | None => first_score u its = None
  end.
Proof.
  induction its as [|[[z' u'] g'] its IH]; simpl; [done|].
  unfold item_user, item_score. simpl.
  destruct (String.eqb_spec u' u) as [->|Hne]; [by exists z', g'|].
  destruct (index_of u its) as [i|]; [|done].
  destruct IH as (z & g & Hi & Hf). by exists z, g.
Qed.

Lemma first_score_elem u its s :
  first_score u its = Some s -> exists g, (s, u, g) ∈ its.
Proof.
  induction its as [|[[z' u'] g'] its IH]; simpl; [done|].
  unfold item_user, item_score. simpl.
  destruct (String.eqb_spec u' u) as [->|Hne].
  - intros [= ->]. exists g'. left.
  - intros H. destruct (IH H) as [g Hg]. exists g. by right.
Qed.

(** After an upsert for [u], the first item of [u] carries the higher of
    the new score and the one it carried before. *)
Lemma first_score_upsert_same z u g its :
  StronglySorted item_lt its ->
  first_score u (upsert z u g its)
  = Some (match first_score u its with
          | Some s => Z.max s z
          | None => z
          end).
Proof.
  induction 1 as [|[[z' u'] g'] rest Hs IH Hall]; simpl.
  - unfold item_user, item_score. simpl. by rewrite String.eqb_refl.
  - unfold item_user, item_score. simpl.
    destruct (before z' u' z u) eqn:Hb.
    + simpl. unfold item_user, item_score. simpl.
      destruct (String.eqb_spec u' u) as [->|Hne]; [|done].
      f_equal. unfold before in Hb. rewrite ltb_irrefl, andb_false_r, orb_false_r in Hb.
      apply Z.ltb_lt in Hb. lia.
    + destruct (String.eqb_spec u' u) as [->|Hne].
      * simpl. unfold item_user, item_score. simpl. rewrite String.eqb_refl.
        f_equal. unfold before in Hb.
        apply orb_false_iff in Hb as [Hb _]. apply Z.ltb_ge in Hb. lia.
      * simpl. unfold item_user, item_score. simpl. rewrite String.eqb_refl.
        f_equal. destruct (first_score u rest) as [s|] eqn:Hf; [|done].
        destruct (first_score_elem _ _ _ Hf) as [gs Hin].
        pose proof (proj1 (Forall_forall _ _) Hall _ Hin) as Hlt.
        pose proof (before_total _ _ _ _ Hb Hne) as Hzu.
        unfold item_lt, before, item_score, item_user in Hlt; simpl in Hlt.
        unfold before in Hzu.
        apply orb_true_iff in Hlt as [H1|[H1 _]%andb_true_iff];
          apply orb_true_iff in Hzu as [H2|[H2 _]%andb_true_iff];
          try apply Z.ltb_lt in H1; try apply Z.ltb_lt in H2;
          try apply Z.eqb_eq in H1; try apply Z.eqb_eq in H2; lia.
Qed.

Lemma first_score_upsert_other z u g v its :
  v <> u -> first_score v (upsert z u g its) = first_score v its.
Proof.
  intros Hv. induction its as [|[[z' u'] g'] rest IH]; simpl.
  - unfold item_user. simpl. by destruct (String.eqb_spec u v) as [->|].
  - destruct (before z' u' z u); simpl; unfold item_user, item_score; simpl.
    + by rewrite IH.
    + destruct (String.eqb_spec u' u) as [->|Hne]; simpl;
        unfold item_user, item_score; simpl.
      * by destruct (String.eqb_spec u v) as [->|].
      * by destruct (String.eqb_spec u v) as [->|].
Qed.

Lemma first_score_upsertAll u ws : forall its,
  StronglySorted item_lt its ->
  first_score u (upsertAll ws its) = highest (first_score u its) u ws.
Proof.
  induction ws as [|w ws IH]; intros its Hs; simpl; [done|].
  rewrite IH by by apply upsert_sorted. f_equal.
  destruct (String.eqb_spec (wr_user w) u) as [<-|Hne].
  - by apply first_score_upsert_same.
  - apply first_score_upsert_other. congruence.
Qed.

Lemma highest_written u ws : forall acc,
  highest acc u ws = None <-> acc = None /\ written u ws = false.
Proof.
  induction ws as [|w ws IH]; intros acc; simpl; [tauto|].
  rewrite IH. destruct (String.eqb (wr_user w) u); simpl; [|tauto].
  split; intros [? ?]; done.
Qed.

Lemma upsert_length z u g its :
  length (upsert z u g its) = length its
  \/ length (upsert z u g its) = S (length its).
Proof.
  induction its as [|[[z' u'] g'] rest IH]; simpl; [by right|].
  destruct (before z' u' z u); simpl; [lia|].
  destruct (String.eqb u' u); simpl; lia.
Qed.

Lemma upsertAll_length ws : forall its,
  (length its <= length (upsertAll ws its) <= length its + length ws)%nat.
Proof.
  induction ws as [|w ws IH]; intros its; simpl; [lia|].
  specialize (IH (upsert (wr_score w) (wr_user w) (wr_game w) its)).
  destruct (upsert_length (wr_score w) (wr_user w) (wr_game w) its); lia.
Qed.

Lemma index_of_lt u its i : index_of u its = Some i -> (i < length its)%nat.
Proof.
  revert i. induction its as [|it its IH]; intros i; simpl; [done|].
  destruct (String.eqb (item_user it) u); [intros [= <-]; lia|].
  destruct (index_of u its) as [j|]; [|done].
  intros [= <-]. specialize (IH j eq_refl). lia.
Qed.

Lemma index_of_upsert_same z u g its : is_Some (index_of u (upsert z u g its)).
Proof.
  induction its as [|[[z' u'] g'] rest IH]; simpl.
  - unfold item_user. simpl. by rewrite String.eqb_refl.
  - destruct (before z' u' z u); simpl; unfold item_user; simpl.
    + destruct (String.eqb u' u); [done|]. by destruct IH as [i ->].
    + destruct (String.eqb_spec u' u) as [->|]; simpl; unfold item_user; simpl;
        by rewrite String.eqb_refl.
Qed.

Lemma index_of_upsert_other z u g v its :
  v <> u ->
  index_of v (upsert z u g its) = index_of v its
  \/ exists i, index_of v its = Some i
       /\ index_of v (upsert z u g its) = Some (S i).
Proof.
  intros Hv. induction its as [|[[z' u'] g'] rest IH]; simpl.
  - unfold item_user. simpl. destruct (String.eqb_spec u v) as [->|]; [done|by left].
  - destruct (before z' u' z u); simpl; unfold item_user; simpl.
    + destruct (String.eqb u' v); [by left|].
      destruct IH as [->|(i & -> & ->)]; [by left|right; by exists (S i)].
    + destruct (String.eqb_spec u' u) as [->|Hne]; simpl; unfold item_user; simpl.
      * destruct (String.eqb_spec u v) as [->|]; [done|by left].
      * destruct (String.eqb_spec u v) as [->|]; [done|].
        destruct (String.eqb u' v); [right; by exists 0%nat|].
        destruct (index_of v rest) as [i|]; [right; by exists (S i)|by left].
Qed.

Lemma upsert_idem z u g g2 its :
  upsert z u g2 (upsert z u g its) = upsert z u g its.
Proof.
  induction its as [|[[z' u'] g'] rest IH]; simpl.
  - by rewrite before_irrefl, String.eqb_refl.
  - destruct (before z' u' z u) eqn:Hb; simpl.
    + by rewrite Hb, IH.
    + destruct (String.eqb_spec u' u) as [->|Hne]; simpl;
        by rewrite before_irrefl, String.eqb_refl.
Qed.

Lemma rows_from_length its : forall k, length (rows_from k its) = length its.
Proof.
  induction its as [|[[z u] g] its IH]; intros k; simpl; [done|]. by rewrite IH.
Qed.

Lemma rows_from_take its : forall k n,
  take n (rows_from k its) = rows_from k (take n its).
Proof.
  induction its as [|[[z u] g] its IH]; intros k n; simpl.
  - by rewrite !take_nil.
  - destruct n as [|n]; simpl; [done|]. by rewrite IH.
Qed.

Lemma rows_from_lookup_Some its : forall k (i : nat) z u g,
  its !! i = Some (z, u, g) ->
  rows_from k its !! i = Some (ILeaderboard.mk u (Int z) (k + Z.of_nat i) g).
Proof.
  induction its as [|[[z' u'] g'] its IH]; intros k i z u g Hi; [done|].
  destruct i as [|i]; simpl in *.
  - injection Hi as -> -> ->. by rewrite Z.add_0_r.
  - rewrite (IH _ _ _ _ _ Hi). do 2 f_equal. lia.
Qed.

(** X1. A user has a rank exactly when some write named it, and the rank is
    then between 1 and the number of writes. *)
Theorem ranked_iff_written ws u :
  exists sl r,
    insertAll ws SkipList.new = Normal sl
    /\ SkipList.getRank sl u = Normal r
    /\ (written u ws = false -> r = -1)
    /\ (written u ws = true -> 1 <= r <= Z.of_nat (length ws)).
Proof.
  destruct (insertAll_new ws) as (sl & Hrun & Hinv).
  exists sl, (rank_from 1 u (upsertAll ws [])).
  split; [done|]. split; [by apply getRank_spec|].
  rewrite rank_from_index.
  pose proof (index_first u (upsertAll ws [])) as Hidx.
  pose proof (first_score_upsertAll u ws [] (SSorted_nil _)) as Hfs.
  simpl in Hfs.
  pose proof (highest_written u ws None) as Hhw.
  destruct (index_of u (upsertAll ws [])) as [i|] eqn:Hi.
  - destruct Hidx as (z & g & _ & Hz). rewrite Hz in Hfs.
    apply index_of_lt in Hi. pose proof (upsertAll_length ws []) as Hl.
    simpl in Hl. split; [|lia].
    intros Hw. destruct Hhw as [_ Hhw]. rewrite Hhw in Hfs; done.
  - split; [done|]. intros Hw. rewrite Hidx in Hfs.
    symmetry in Hfs. apply Hhw in Hfs as [_ Hfs]. congruence.
Qed.

(** X2. [getScore] answers the highest score ever written for the user, and
    -1 for a user never written. *)
Theorem score_is_highest_written ws u :
  exists sl,
    insertAll ws SkipList.new = Normal sl
    /\ SkipList.getScore sl u
       = Normal (match highest None u ws with
                 | Some m => Int m
                 | None => Int (-1)
                 end).
Proof.
  destruct (insertAll_new ws) as (sl & Hrun & Hinv).
  exists sl. split; [done|].
  rewrite (getScore_spec _ _ u Hinv), score_in_first.
  by rewrite (first_score_upsertAll u ws [] (SSorted_nil _)).
Qed.

(** X3. The row that [getTopK] puts at the rank [getRank] reports for a user
    is that user's row, with the score [getScore] reports. *)
Theorem rank_names_own_row ws u :
  exists sl r,
    insertAll ws SkipList.new = Normal sl
    /\ SkipList.getRank sl u = Normal r
    /\ (r <> -1 ->
        exists s g rows,
          SkipList.getScore sl u = Normal (Int s)
          /\ SkipList.getTopK sl r = Normal rows
          /\ length rows = Z.to_nat r
          /\ last rows = Some (ILeaderboard.mk u (Int s) r g)).
Proof.
  destruct (insertAll_new ws) as (sl & Hrun & Hinv).
  set (its := upsertAll ws []) in *.
  exists sl, (rank_from 1 u its).
  split; [done|]. split; [by apply getRank_spec|].
  rewrite rank_from_index. pose proof (index_first u its) as Hidx.
  destruct (index_of u its) as [i|] eqn:Hi; [|done]. intros _.
  destruct Hidx as (s & g & Hits & Hfs).
  exists s, g, (rows_from 1 (take (Z.to_nat (1 + Z.of_nat i)) its)).
  apply index_of_lt in Hi.
  replace (Z.to_nat (1 + Z.of_nat i)) with (S i) by lia.
  split; [by rewrite (getScore_spec _ _ u Hinv), score_in_first, Hfs|].
  split; [rewrite (getTopK_spec _ _ _ Hinv); by replace (Z.to_nat (1 + Z.of_nat i)) with (S i) by lia|].
  assert (length (rows_from 1 (take (S i) its)) = S i) as Hlen.
  { rewrite rows_from_length, length_take. lia. }
  split; [done|].
  rewrite last_lookup, Hlen. simpl.
  apply rows_from_lookup_Some. rewrite lookup_take_lt by lia. done.
Qed.

(** X4. [getTopK k] returns the first [k] rows of the ranking, or all of them
    when there are fewer; the row at index [i] has rank [i + 1]; and the
    answer for a smaller [k] is a prefix of the answer for a larger one.
    There are at most as many rows as writes. *)
Theorem topK_dense_prefix ws :
  exists sl n,
    insertAll ws SkipList.new = Normal sl
    /\ (n <= length ws)%nat
    /\ forall k,
         exists rows,
           SkipList.getTopK sl k = Normal rows
           /\ length rows = Nat.min (Z.to_nat k) n
           /\ (forall (i : nat) r,
                 rows !! i = Some r -> ILeaderboard.rank r = Z.of_nat i + 1)
           /\ (forall k', k <= k' ->
                 exists rows',
                   SkipList.getTopK sl k' = Normal rows'
                   /\ rows = take (Z.to_nat k) rows').
Proof.
  destruct (insertAll_new ws) as (sl & Hrun & Hinv).
  set (its := upsertAll ws []) in *.
  exists sl, (length its). split; [done|].
  split; [pose proof (upsertAll_length ws []) as Hl; simpl in Hl; fold its in Hl; lia|].
  intros k. exists (rows_from 1 (take (Z.to_nat k) its)).
  split; [by apply getTopK_spec|].
  split; [by rewrite rows_from_length, length_take|].
  split.
  - intros i r Hr. apply rows_from_lookup in Hr as (z & u & g & _ & ->). simpl. lia.
  - intros k' Hk. exists (rows_from 1 (take (Z.to_nat k') its)).
    split; [by apply getTopK_spec|].
    rewrite rows_from_take, take_take. do 2 f_equal. lia.
Qed.

(** X5. Writing the score a user was just given a second time, whatever the
    game, the time and the levels drawn, changes no answer of [getTopK],
    [getRank] or [getScore]. *)
Theorem rewrite_same_score_idempotent ws w rnd2 g2 c2 :
  exists sl0 sl1 sl2,
    insertAll ws SkipList.new = Normal sl0
    /\ SkipList.insertScore (wr_rnd w) (entry_of w) sl0 = Normal sl1
    /\ SkipList.insertScore rnd2
         (IScoreDetails.mk (wr_user w) g2 (Int (wr_score w)) c2) sl1
       = Normal sl2
    /\ (forall k, SkipList.getTopK sl2 k = SkipList.getTopK sl1 k)
    /\ (forall u, SkipList.getRank sl2 u = SkipList.getRank sl1 u)
    /\ (forall u, SkipList.getScore sl2 u = SkipList.getScore sl1 u).
Proof.
  destruct (insertAll_new ws) as (sl0 & Hrun & Hinv0).
  destruct (insertScore_refines sl0 _ (wr_rnd w) (entry_of w) (wr_score w)
              Hinv0 eq_refl) as (sl1 & H1 & Hinv1).
  destruct (insertScore_refines sl1 _ rnd2
              (IScoreDetails.mk (wr_user w) g2 (Int (wr_score w)) c2)
              (wr_score w) Hinv1 eq_refl) as (sl2 & H2 & Hinv2).
  simpl in Hinv1, Hinv2. rewrite upsert_idem in Hinv2.
  exists sl0, sl1, sl2. repeat (split; [done|]). split; [|split].
  - intros k. by rewrite (getTopK_spec _ _ k Hinv1), (getTopK_spec _ _ k Hinv2).
  - intros u. by rewrite (getRank_spec _ _ u Hinv1), (getRank_spec _ _ u Hinv2).
  - intros u. by rewrite (getScore_spec _ _ u Hinv1), (getScore_spec _ _ u Hinv2).
Qed.

(** X6. A write for one user leaves the score reported for any other user as
    it was, and that user's rank as it was or one place lower. *)
Theorem other_users_unaffected ws w v (Hv : v <> wr_user w) :
  exists sl sl' r r',
    insertAll ws SkipList.new = Normal sl
    /\ SkipList.insertScore (wr_rnd w) (entry_of w) sl = Normal sl'
    /\ SkipList.getScore sl' v = SkipList.getScore sl v
    /\ SkipList.getRank sl v = Normal r
    /\ SkipList.getRank sl' v = Normal r'
    /\ (r' = r \/ (r <> -1 /\ r' = r + 1)).
Proof.
  destruct (insertAll_new ws) as (sl & Hrun & Hinv).
  destruct (insertScore_refines sl _ (wr_rnd w) (entry_of w) (wr_score w)
              Hinv eq_refl) as (sl' & H1 & Hinv'). simpl in Hinv'.
  exists sl, sl', (rank_from 1 v (upsertAll ws [])),
    (rank_from 1 v (upsert (wr_score w) (wr_user w) (wr_game w) (upsertAll ws []))).
  split; [done|]. split; [done|]. split.
  { rewrite (getScore_spec _ _ v Hinv), (getScore_spec _ _ v Hinv'), !score_in_first.
    by rewrite first_score_upsert_other. }
  split; [by apply getRank_spec|]. split; [by apply getRank_spec|].
  rewrite !rank_from_index.
  destruct (index_of_upsert_other (wr_score w) (wr_user w) (wr_game w) v
              (upsertAll ws []) Hv) as [->|(i & -> & ->)]; [by left|].
  right. lia.
Qed.

Lemma other_users_unaffected_witness :
  exists sl sl' r r',
    insertAll [mkWrite (fun _ => false) "b" (Some "g") 5 (mkDate (Int 0))]
      SkipList.new = Normal sl
    /\ SkipList.insertScore (fun _ => false)
         (entry_of (mkWrite (fun _ => false) "a" (Some "g") 5 (mkDate (Int 1))))
         sl = Normal sl'
    /\ SkipList.getScore sl' "b" = SkipList.getScore sl "b"
    /\ SkipList.getRank sl "b" = Normal r
    /\ SkipList.getRank sl' "b" = Normal r'
    /\ (r' = r \/ (r <> -1 /\ r' = r + 1)).
Proof.
  apply (other_users_unaffected
           [mkWrite (fun _ => false) "b" (Some "g") 5 (mkDate (Int 0))]
           (mkWrite (fun _ => false) "a" (Some "g") 5 (mkDate (Int 1))) "b").
  discriminate.
Defined.

(** X7. A write never removes a row and adds at most one: every answer of
    [getTopK] is as long as before or one row longer; and the user
    written has a rank afterwards. *)
Theorem write_adds_at_most_one_row ws w :
  exists sl sl' r,
    insertAll ws SkipList.new = Normal sl
    /\ SkipList.insertScore (wr_rnd w) (entry_of w) sl = Normal sl'
    /\ SkipList.getRank sl' (wr_user w) = Normal r /\ 1 <= r
    /\ forall k,
         exists rows rows',
           SkipList.getTopK sl k = Normal rows
           /\ SkipList.getTopK sl' k = Normal rows'
           /\ (length rows <= length rows' <= S (length rows))%nat.
Proof.
  destruct (insertAll_new ws) as (sl & Hrun & Hinv).
  destruct (insertScore_refines sl _ (wr_rnd w) (entry_of w) (wr_score w)
              Hinv eq_refl) as (sl' & H1 & Hinv'). simpl in Hinv'.
  set (its := upsertAll ws []) in *.
  set (its' := upsert (wr_score w) (wr_user w) (wr_game w) its) in *.
  exists sl, sl', (rank_from 1 (wr_user w) its').
  split; [done|]. split; [done|]. split; [by apply getRank_spec|].
  split.
  { rewrite rank_from_index.
    destruct (index_of_upsert_same (wr_score w) (wr_user w) (wr_game w) its)
      as [i Hi]. fold its' in Hi. rewrite Hi. lia. }
  intros k. exists (rows_from 1 (take (Z.to_nat k) its)),
    (rows_from 1 (take (Z.to_nat k) its')).
  split; [by apply getTopK_spec|]. split; [by apply getTopK_spec|].
  rewrite !rows_from_length, !length_take.
  destruct (upsert_length (wr_score w) (wr_user w) (wr_game w) its) as [Hl|Hl];
    fold its' in Hl; lia.
Qed.

(** ** Levels and the size of the store *)

Lemma randomLevel_loop_spec rnd : forall n lvl,
  (lvl <= SkipList.randomLevel_loop n rnd lvl <= lvl + n)%nat
  /\ (forall i, (lvl <= i < SkipList.randomLevel_loop n rnd lvl)%nat ->
                rnd i = true)
  /\ ((SkipList.randomLevel_loop n rnd lvl < lvl + n)%nat ->
      rnd (SkipList.randomLevel_loop n rnd lvl) = false).
Proof.
  induction n as [|n IH]; intros lvl; simpl.
  - repeat split; intros; lia.
  - destruct (rnd lvl) eqn:Hr.
    + destruct (IH (S lvl)) as (Hb & Hall & Hstop).
      split; [lia|]. split.
      * intros i Hi. destruct (decide (i = lvl)) as [->|]; [done|].
        apply Hall. lia.
      * intros Hlt. apply Hstop. lia.
    + split; [lia|]. split; [intros; lia|done].
Qed.

(** X8. [randomLevel] counts the leading successful draws and stops at
    [maxLevel]: the level it returns is at most [maxLevel], every draw
    below it succeeded, and unless it reached [maxLevel] the next draw
    failed. *)
Theorem randomLevel_counts_draws sl rnd :
  (SkipList.randomLevel sl rnd <= SkipList.maxLevel sl)%nat
  /\ (forall i, (i < SkipList.randomLevel sl rnd)%nat -> rnd i = true)
  /\ ((SkipList.randomLevel sl rnd < SkipList.maxLevel sl)%nat ->
      rnd (SkipList.randomLevel sl rnd) = false).
Proof.
  unfold SkipList.randomLevel.
  destruct (randomLevel_loop_spec rnd (SkipList.maxLevel sl) 0)
    as (Hb & Hall & Hstop).
  split; [lia|]. split.
  - intros i Hi. apply Hall. lia.
  - intros Hlt. apply Hstop. lia.
Qed.

Lemma store_forward_length h p i v h' :
  store_forward h p i v = Normal h' -> length h' = length h.
Proof.
  unfold store_forward, deref. destruct (h !! p); simpl; [|done].
  intros [= <-]. apply length_insert.
Qed.

Lemma splice_length upd new : forall n i h h',
  SkipList.splice n i upd new h = Normal h' -> length h' = length h.
Proof.
  induction n as [|n IH]; intros i h h'; simpl; [by intros [= ->]|].
  destruct (SkipList.nonnull (js_get upd i)) as [u|]; simpl; [|done].
  destruct (store_forward h new i (fwd h u i)) as [h1|] eqn:H1; simpl; [|done].
  destruct (store_forward h1 u i (Some new)) as [h2|] eqn:H2; simpl; [|done].
  intros H. apply IH in H. apply store_forward_length in H1, H2. lia.
Qed.

Lemma insertNode_shape rnd sd sl upd sl' :
  SkipList.insertNode rnd sd sl upd = Normal sl' ->
  SkipList.header sl' = SkipList.header sl
  /\ SkipList.maxLevel sl' = SkipList.maxLevel sl
  /\ SkipList.level sl'
     = Nat.max (SkipList.level sl) (SkipList.randomLevel sl rnd)
  /\ length (SkipList.heap_of sl') = S (length (SkipList.heap_of sl)).
Proof.
  unfold SkipList.insertNode.
  destruct (SkipList.splice _ _ _ _ _) as [h'|] eqn:Hs; simpl; [|done].
  intros [= <-]. simpl. apply splice_length in Hs.
  rewrite length_app in Hs. simpl in Hs.
  repeat split; try lia.
  destruct (Nat.ltb_spec (SkipList.level sl) (SkipList.randomLevel sl rnd)); lia.
Qed.

Lemma insertScore_shape rnd sd sl sl' :
  SkipList.insertScore rnd sd sl = Normal sl' ->
  SkipList.header sl' = SkipList.header sl
  /\ SkipList.maxLevel sl' = SkipList.maxLevel sl
  /\ (SkipList.level sl' = SkipList.level sl
      \/ SkipList.level sl'
         = Nat.max (SkipList.level sl) (SkipList.randomLevel sl rnd))
  /\ (length (SkipList.heap_of sl) <= length (SkipList.heap_of sl')
      <= S (length (SkipList.heap_of sl)))%nat.
Proof.
  unfold SkipList.insertScore.
  destruct (SkipList.search _ _ _ _ _) as [[c upd]|]; simpl; [|done].
  assert (forall sl1, SkipList.insertNode rnd sd sl upd = Normal sl1 ->
            SkipList.header sl1 = SkipList.header sl
            /\ SkipList.maxLevel sl1 = SkipList.maxLevel sl
            /\ (SkipList.level sl1 = SkipList.level sl
                \/ SkipList.level sl1
                   = Nat.max (SkipList.level sl) (SkipList.randomLevel sl rnd))
            /\ (length (SkipList.heap_of sl) <= length (SkipList.heap_of sl1)
                <= S (length (SkipList.heap_of sl)))%nat) as Hnode.
  { intros sl1 H. apply insertNode_shape in H as (? & ? & ? & ?).
    repeat split; try done; [by right|lia..]. }
  destruct (fwd _ c 0) as [nx|]; [|apply Hnode].
  destruct (deref _ nx) as [n|]; simpl; [|done].
  destruct (String.eqb _ _); [|apply Hnode].
  unfold store_score. destruct (deref _ nx) as [n'|]; simpl; [|done].
  intros [= <-]. simpl. rewrite length_insert. repeat split; lia.
Qed.

Lemma insertAll_shape ws : forall sl sl',
  insertAll ws sl = Normal sl' ->
  (SkipList.level sl <= SkipList.maxLevel sl)%nat ->
  SkipList.header sl' = SkipList.header sl
  /\ SkipList.maxLevel sl' = SkipList.maxLevel sl
  /\ (SkipList.level sl' <= SkipList.maxLevel sl)%nat
  /\ (length (SkipList.heap_of sl) <= length (SkipList.heap_of sl')
      <= length (SkipList.heap_of sl) + length ws)%nat.
Proof.
  induction ws as [|w ws IH]; intros sl sl' Hrun Hlv; simpl in *.
  - injection Hrun as <-. repeat split; lia.
  - destruct (SkipList.insertScore _ _ sl) as [sl1|] eqn:H1; simpl in Hrun; [|done].
    apply insertScore_shape in H1 as (Hh & Hm & Hl & Hlen).
    pose proof (randomLevel_loop_spec (wr_rnd w) (SkipList.maxLevel sl) 0)
      as (Hr & _).
    change (SkipList.randomLevel_loop (SkipList.maxLevel sl) (wr_rnd w) 0)
      with (SkipList.randomLevel sl (wr_rnd w)) in Hr.
    destruct (IH sl1 sl' Hrun) as (Hh' & Hm' & Hl' & Hlen'); [rewrite Hm; lia|].
    rewrite Hh', Hm', Hh, Hm. rewrite Hm in Hl'. repeat split; try done; lia.
Qed.

(** X9. Whatever is written and whatever levels are drawn, the header stays
    the node allocated first, [maxLevel] stays 20, the level of the list
    never exceeds it, and the store holds the header and at most one
    node per write. *)
Theorem level_and_store_bounds ws :
  exists sl,
    insertAll ws SkipList.new = Normal sl
    /\ SkipList.header sl = 0%nat
    /\ SkipList.maxLevel sl = 20%nat
    /\ (SkipList.level sl <= 20)%nat
    /\ (1 <= length (SkipList.heap_of sl) <= 1 + length ws)%nat.
Proof.
  destruct (insertAll_new ws) as (sl & Hrun & _).
  exists sl. split; [done|].
  apply insertAll_shape in Hrun as (Hh & Hm & Hl & Hlen); [|simpl; lia].
  simpl in *. repeat split; try done; lia.
Qed.

(** ** Runs of appends and what [recover] reads back *)

Lemma string_app_nil_r (s : string) : s +:+ "" = s.
Proof.
  induction s as [|x s IH]; [done|]. rewrite string_app_cons. by rewrite IH.
Qed.











Lemma trimStart_all_ws s : all_ws s = true -> JS.trimStart s = EmptyString.
Proof.
  induction s as [|a s IH]; simpl; [done|].
  intros [Ha Hs]%andb_true_iff. rewrite Ha. by apply IH.
Qed.

(** X11. [recover] returns no entry, and does not fail, when the file cannot
    be read, when there is no file, and when the file holds nothing but
    white space. *)
Theorem recover_nothing_to_read io w fs
    (Hnothing : io <> None
                \/ fs !! WriteAheadLog.walPath w = None
                \/ exists s, fs !! WriteAheadLog.walPath w = Some s
                             /\ all_ws s = true) :
  WriteAheadLog.recover io w fs = [].
Proof.
  unfold WriteAheadLog.recover.
  destruct io as [err|]; [done|].
  destruct Hnothing as [?|[->|(s & -> & Hs)]]; [done|done|].
  unfold JS.trim. by rewrite (trimStart_all_ws s Hs).
Qed.

Lemma recover_nothing_to_read_witness :
  WriteAheadLog.recover None (WriteAheadLog.new "g")
    {["data/g.wal" := String LF (String " " (String LF EmptyString))]} = [].
Proof.
  apply recover_nothing_to_read. right. right.
  exists (String LF (String " " (String LF EmptyString))).
  split; reflexivity.
Defined.

(** ** The engine behind the request handler *)

(** The two ways [updateScore] can end on a well-formed skip list with an
    integer score: resolved, with the record appended and the entry
    upserted; or rejected, with nothing changed but the queue. *)
Lemma updateScore_cases render io rnd sd e fs its z :
  Inv (LeaderboardEngine.skipList e) its ->
  IScoreDetails.score sd = Int z ->
  exists r e' fs',
    LeaderboardEngine.updateScore render io rnd sd e fs = (r, e', fs')
    /\ LeaderboardEngine.gameId e' = LeaderboardEngine.gameId e
    /\ WriteAheadLog.walPath (LeaderboardEngine.wal e')
       = WriteAheadLog.walPath (LeaderboardEngine.wal e)
    /\ ((r = LeaderboardEngine.Resolved
         /\ io = None
         /\ fs' = <[WriteAheadLog.walPath (LeaderboardEngine.wal e) :=
                      default "" (fs !! WriteAheadLog.walPath (LeaderboardEngine.wal e))
                      +:+ WriteAheadLog.logLine render sd]> fs
         /\ Inv (LeaderboardEngine.skipList e')
              (upsert z (IScoreDetails.user_id sd) (IScoreDetails.game_id sd) its))
        \/ (exists reason,
              r = LeaderboardEngine.RejectedWith reason
              /\ fs' = fs
              /\ LeaderboardEngine.skipList e' = LeaderboardEngine.skipList e)).
Proof.
  intros Hinv Hz.
  destruct e as [gid sl [q path]]. simpl in *.
  unfold LeaderboardEngine.updateScore, WriteAheadLog.append,
    WriteAheadLog.then_, WriteAheadLog.appendFile. simpl.
  destruct q as [|reason]; [destruct io as [err|]|]; simpl.
  - eexists _, _, _. split; [reflexivity|]. simpl. repeat split.
    right. by exists err.
  - destruct (insertScore_refines sl its rnd sd z Hinv Hz) as (sl' & -> & Hinv').
    eexists _, _, _. split; [reflexivity|]. simpl. repeat split. by left.
  - eexists _, _, _. split; [reflexivity|]. simpl. repeat split.
    right. by exists reason.
Qed.

Lemma registry_ok_empty : registry_ok ∅.
Proof. intros g e H. by rewrite lookup_empty in H. Qed.

Lemma registry_ok_insert m g e :
  registry_ok m ->
  LeaderboardEngine.gameId e = g ->
  WriteAheadLog.walPath (LeaderboardEngine.wal e)
  = WriteAheadLog.walPath (WriteAheadLog.new g) ->
  (exists its, Inv (LeaderboardEngine.skipList e) its) ->
  registry_ok (<[g := e]> m).
Proof.
  intros Hm Hg Hp Hi g' e'. destruct (decide (g' = g)) as [->|Hne].
  - rewrite lookup_insert_eq. intros [= <-]. done.
  - rewrite lookup_insert_ne by done. apply Hm.
Qed.

Lemma getInstance_ok g m :
  registry_ok m ->
  registry_ok (LeaderboardEngine.getInstance g m).2
  /\ (LeaderboardEngine.getInstance g m).2 !! g
     = Some (LeaderboardEngine.getInstance g m).1
  /\ (forall h, h <> g ->
        (LeaderboardEngine.getInstance g m).2 !! h = m !! h).
Proof.
  intros Hm. unfold LeaderboardEngine.getInstance.
  destruct (m !! g) as [e|] eqn:E; simpl.
  - done.
  - split; [|split].
    + apply registry_ok_insert; try done. exists []. apply Inv_new.
    + by rewrite lookup_insert_eq.
    + intros h Hh. by rewrite lookup_insert_ne.
Qed.

Lemma served_registry_ok p : served p -> registry_ok (Process.Instances p).
Proof.
  induction 1 as [fs|g p _ IH|render io rnd g sd z p _ IH Hz].
  - apply registry_ok_empty.
  - unfold Process.shard.
    pose proof (getInstance_ok g _ IH) as (Hok & _).
    by destruct (LeaderboardEngine.getInstance g (Process.Instances p)).
  - unfold Process.updateScore, Process.shard.
    pose proof (getInstance_ok g _ IH) as (Hok & Hg & _).
    destruct (LeaderboardEngine.getInstance g (Process.Instances p)) as [e m].
    simpl in *. destruct (Hok g e Hg) as (Hgid & Hpath & its & Hinv).
    destruct (updateScore_cases render io rnd sd e (Process.disk p) its z Hinv Hz)
      as (r & e' & fs' & -> & Hgid' & Hpath' & Hcase).
    simpl. apply registry_ok_insert; [done|congruence|congruence|].
    destruct Hcase as [(_ & _ & _ & Hinv')|(reason & _ & _ & Heq)];
      [|rewrite Heq]; eauto.
Qed.

Lemma string_length_app (a b : string) :
  String.length (a +:+ b) = (String.length a + String.length b)%nat.
Proof.
  induction a as [|x a IH]; [done|]. rewrite string_app_cons. simpl. by rewrite IH.
Qed.

Lemma string_app_inv_r (s : string) : forall a b, a +:+ s = b +:+ s -> a = b.
Proof.
  induction a as [|x a IH]; intros [|y b] H; [done| | |].
  - apply (f_equal String.length) in H.
    rewrite !string_length_app in H. simpl in H. lia.
  - apply (f_equal String.length) in H.
    rewrite !string_length_app in H. simpl in H. lia.
  - rewrite !string_app_cons in H. injection H as -> H. f_equal. by apply IH.
Qed.

Lemma walPath_inj g h :
  WriteAheadLog.walPath (WriteAheadLog.new g)
  = WriteAheadLog.walPath (WriteAheadLog.new h) -> g = h.
Proof.
  simpl. intros H.
  change ("data/" +:+ g +:+ ".wal") with
    (String "d" (String "a" (String "t" (String "a" (String "/" (g +:+ ".wal"))))))
    in H.
  change ("data/" +:+ h +:+ ".wal") with
    (String "d" (String "a" (String "t" (String "a" (String "/" (h +:+ ".wal"))))))
    in H.
  injection H as H. by apply string_app_inv_r in H.
Qed.

Lemma shard_fst g p :
  (Process.shard g p).1 = (LeaderboardEngine.getInstance g (Process.Instances p)).1.
Proof.
  unfold Process.shard.
  by destruct (LeaderboardEngine.getInstance g (Process.Instances p)).
Qed.

Lemma getInstance_agree g m1 m2 :
  m1 !! g = m2 !! g ->
  (LeaderboardEngine.getInstance g m1).1 = (LeaderboardEngine.getInstance g m2).1.
Proof.
  unfold LeaderboardEngine.getInstance. intros ->. by destruct (m2 !! g).
Qed.

(** What a call of [Process.updateScore] does, on a process that
    requests have produced. *)
Lemma process_update_cases render io rnd g sd z p :
  served p ->
  IScoreDetails.score sd = Int z ->
  exists r e e' m fs' its,
    Process.updateScore render io rnd g sd p
    = (r, Process.mk (<[g := e']> m) fs')
    /\ (Process.shard g p).1 = e
    /\ (forall h, h <> g -> m !! h = Process.Instances p !! h)
    /\ Inv (LeaderboardEngine.skipList e) its
    /\ ((r = LeaderboardEngine.Resolved
         /\ io = None
         /\ fs' = <[WriteAheadLog.walPath (WriteAheadLog.new g) :=
                      default "" (Process.disk p
                                  !! WriteAheadLog.walPath (WriteAheadLog.new g))
                      +:+ WriteAheadLog.logLine render sd]> (Process.disk p)
         /\ Inv (LeaderboardEngine.skipList e')
              (upsert z (IScoreDetails.user_id sd) (IScoreDetails.game_id sd) its))
        \/ (exists reason,
              r = LeaderboardEngine.RejectedWith reason
              /\ fs' = Process.disk p
              /\ LeaderboardEngine.skipList e' = LeaderboardEngine.skipList e)).
Proof.
  intros Hs Hz. pose proof (served_registry_ok p Hs) as Hok.
  pose proof (shard_fst g p) as Hfst.
  unfold Process.updateScore, Process.shard.
  pose proof (getInstance_ok g _ Hok) as (Hok' & Hg & Hother).
  destruct (LeaderboardEngine.getInstance g (Process.Instances p)) as [e m].
  simpl in *. destruct (Hok' g e Hg) as (Hgid & Hpath & its & Hinv).
  destruct (updateScore_cases render io rnd sd e (Process.disk p) its z Hinv Hz)
    as (r & e' & fs' & -> & _ & _ & Hcase).
  exists r, e, e', m, fs', its. rewrite Hpath in Hcase. done.
Qed.




(** X13. A write to one game leaves every other game alone: the engine that
    [getInstance] hands out for another game, and the log file of that
    game, are what they were. Game names are free of [/], so that the
    path of a log is the one [path.join] computes. *)
Theorem games_are_isolated render io rnd g sd z p h
    (Hs : served p) (Hz : IScoreDetails.score sd = Int z) (Hgh : h <> g)
    (Hg : contains "/" g = false) (Hh : contains "/" h = false) :
  (Process.shard h (Process.updateScore render io rnd g sd p).2).1
  = (Process.shard h p).1
  /\ Process.disk (Process.updateScore render io rnd g sd p).2
     !! WriteAheadLog.walPath (WriteAheadLog.new h)
     = Process.disk p !! WriteAheadLog.walPath (WriteAheadLog.new h).
Proof.
  destruct (process_update_cases render io rnd g sd z p Hs Hz)
    as (r & e & e' & m & fs' & its & -> & _ & Hother & _ & Hcase).
  simpl. split.
  - rewrite !shard_fst. apply getInstance_agree. simpl.
    rewrite lookup_insert_ne by done. by apply Hother.
  - destruct Hcase as [(_ & _ & -> & _)|(reason & _ & -> & _)]; [|done].
    rewrite lookup_insert_ne; [done|].
    intros E. apply walPath_inj in E. congruence.
Qed.

Lemma games_are_isolated_witness :
  (Process.shard "h"
     (Process.updateScore JS.utc_render None (fun _ => false) "g"
        (IScoreDetails.mk "u1" (Some "g") (Int 10) (mkDate (Int 0)))
        (Process.start ∅)).2).1
  = (Process.shard "h" (Process.start ∅)).1
  /\ Process.disk
       (Process.updateScore JS.utc_render None (fun _ => false) "g"
          (IScoreDetails.mk "u1" (Some "g") (Int 10) (mkDate (Int 0)))
          (Process.start ∅)).2
     !! WriteAheadLog.walPath (WriteAheadLog.new "h")
     = Process.disk (Process.start ∅) !! WriteAheadLog.walPath (WriteAheadLog.new "h").
Proof.
  apply (games_are_isolated JS.utc_render None (fun _ => false) "g"
           (IScoreDetails.mk "u1" (Some "g") (Int 10) (mkDate (Int 0))) 10
           (Process.start ∅) "h"); try reflexivity; [apply served_start|discriminate].
Defined.

(** ** The replay of the log *)










(** ** The earlier [insertScore] *)

(** X15. With the guard of the earlier version, a walk that comes to the end
    of a level throws; on a new skip list that is the first step, for
    every entry, so that no call ever returns and the skip list stays
    the new one. *)
Theorem earlier_insertScore_never_inserts sl (Hsl : SkipList0.reachable sl) :
  sl = SkipList.new
  /\ forall rnd sd, SkipList0.insertScore rnd sd sl = Abrupt TypeError.
Proof.
  assert (forall rnd sd,
            SkipList0.insertScore rnd sd SkipList.new = Abrupt TypeError) as Hnew
    by reflexivity.
  induction Hsl as [|rnd sd sl sl' _ [-> _] Hins]; [done|].
  by rewrite Hnew in Hins.
Qed.

Lemma earlier_insertScore_never_inserts_witness :
  SkipList.new = SkipList.new
  /\ forall rnd sd, SkipList0.insertScore rnd sd SkipList.new = Abrupt TypeError.
Proof.
  apply (earlier_insertScore_never_inserts SkipList.new).
  apply SkipList0.reachable_new.
Defined.

(** ** The log of [utils/dummy.ts] *)















Lemma strip_prefix_Some pat : forall s rest,
  strip_prefix pat s = Some rest -> s = pat +:+ rest.
Proof.
  induction pat as [|a pat IH]; intros s rest.
  - destruct s; simpl; intros [= <-]; reflexivity.
  - destruct s as [|b s]; simpl; [done|].
    destruct (Ascii.eqb_spec a b) as [->|]; [|done].
    intros H. rewrite string_app_cons. f_equal. by apply IH.
Qed.

Lemma strip_prefix_app pat b : strip_prefix pat (pat +:+ b) = Some b.
Proof.
  induction pat as [|a pat IH]; [by destruct b|].
  rewrite string_app_cons. simpl. by rewrite Ascii.eqb_refl.
Qed.

Lemma string_replace_eq pat rep s :
  string_replace pat rep s
  = match strip_prefix pat s with
    | Some rest => rep +:+ rest
    | None =>
        match s with
        | EmptyString => EmptyString
        | String c r => String c (string_replace pat rep r)
        end
    end.
Proof. by destruct s. Qed.

Lemma string_replace_length pat rep b : forall a,
  (String.length (string_replace pat rep (a +:+ pat +:+ b)) + String.length pat
   = String.length (a +:+ pat +:+ b) + String.length rep)%nat.
Proof.
  assert (forall s rest, strip_prefix pat s = Some rest ->
            (String.length (rep +:+ rest) + String.length pat
             = String.length s + String.length rep)%nat) as Hhit.
  { intros s rest ->%strip_prefix_Some. rewrite !string_length_app. lia. }
  induction a as [|c a IH].
  - change ("" +:+ pat +:+ b) with (pat +:+ b).
    rewrite string_replace_eq, strip_prefix_app.
    apply Hhit, strip_prefix_app.
  - rewrite string_app_cons, string_replace_eq.
    destruct (strip_prefix pat (String c (a +:+ pat +:+ b))) as [rest|] eqn:Es.
    + by apply Hhit.
    + simpl. rewrite <- IH. lia.
Qed.

Lemma checkpointPath_fresh cwd g :
  Dummy.WriteAheadLog.checkpointPath (Dummy.WriteAheadLog.new cwd g)
  <> WriteAheadLog.walPath (Dummy.WriteAheadLog.new cwd g).
Proof.
  unfold Dummy.WriteAheadLog.checkpointPath. simpl. intros E.
  pose proof (string_replace_length ".wal" ".checkpoint" "" (cwd +:+ "/data/" +:+ g))
    as H.
  rewrite !string_app_nil_r, string_app_assoc, string_app_assoc in H.
  rewrite E in H. simpl in H. lia.
Qed.

(** X17. [checkpoint] copies the log aside and empties it, and [recover]
    reads the log alone: once a checkpoint has gone through, the copy
    holds what the log held, and [recover] returns no entry at all,
    whatever had been logged. *)
Theorem checkpoint_empties_what_recover_reads cwd g fs content
    (Hlog : fs !! WriteAheadLog.walPath (Dummy.WriteAheadLog.new cwd g)
            = Some content) :
  Dummy.WriteAheadLog.checkpoint None None (Dummy.WriteAheadLog.new cwd g) fs
  !! Dummy.WriteAheadLog.checkpointPath (Dummy.WriteAheadLog.new cwd g)
  = Some content
  /\ Dummy.WriteAheadLog.checkpoint None None (Dummy.WriteAheadLog.new cwd g) fs
     !! WriteAheadLog.walPath (Dummy.WriteAheadLog.new cwd g)
     = Some EmptyString
  /\ Dummy.WriteAheadLog.recover None (Dummy.WriteAheadLog.new cwd g)
       (Dummy.WriteAheadLog.checkpoint None None
          (Dummy.WriteAheadLog.new cwd g) fs)
     = [].
Proof.
  pose proof (checkpointPath_fresh cwd g) as Hne.
  unfold Dummy.WriteAheadLog.checkpoint. rewrite Hlog.
  split; [|split].
  - rewrite lookup_insert_ne by done. by rewrite lookup_insert_eq.
  - by rewrite lookup_insert_eq.
  - unfold Dummy.WriteAheadLog.recover. by rewrite lookup_insert_eq.
Qed.

Lemma checkpoint_empties_what_recover_reads_witness :
  Dummy.WriteAheadLog.checkpoint None None (Dummy.WriteAheadLog.new "/srv" "g")
    {[ "/srv/data/g.wal" := "u1,10,1700000000000" +:+ String LF "" ]}
  !! Dummy.WriteAheadLog.checkpointPath (Dummy.WriteAheadLog.new "/srv" "g")
  = Some ("u1,10,1700000000000" +:+ String LF "")
  /\ Dummy.WriteAheadLog.checkpoint None None (Dummy.WriteAheadLog.new "/srv" "g")
       {[ "/srv/data/g.wal" := "u1,10,1700000000000" +:+ String LF "" ]}
     !! WriteAheadLog.walPath (Dummy.WriteAheadLog.new "/srv" "g")
     = Some EmptyString
  /\ Dummy.WriteAheadLog.recover None (Dummy.WriteAheadLog.new "/srv" "g")
       (Dummy.WriteAheadLog.checkpoint None None
          (Dummy.WriteAheadLog.new "/srv" "g")
          {[ "/srv/data/g.wal" := "u1,10,1700000000000" +:+ String LF "" ]})
     = [].
Proof.
  apply (checkpoint_empties_what_recover_reads "/srv" "g"
           {[ "/srv/data/g.wal" := "u1,10,1700000000000" +:+ String LF "" ]}).
  apply lookup_singleton_eq.
Defined.

(** ** One engine per game *)

(** X18. [getInstance] builds an engine for a game once: asked again for the
    same game it returns the engine it returned before and leaves the
    registry as it is; the engine built by a first call answers as the
    empty leaderboard, whatever the disk holds. *)
Theorem getInstance_builds_once g m :
  LeaderboardEngine.getInstance g (LeaderboardEngine.getInstance g m).2
  = ((LeaderboardEngine.getInstance g m).1, (LeaderboardEngine.getInstance g m).2)
  /\ (m !! g = None ->
      (forall k, LeaderboardEngine.getTopK
                   (LeaderboardEngine.getInstance g m).1 k = Normal [])
      /\ (forall u, LeaderboardEngine.getUserRank
                      (LeaderboardEngine.getInstance g m).1 u = Normal (-1))
      /\ (forall u, LeaderboardEngine.getUserScore
                      (LeaderboardEngine.getInstance g m).1 u
                    = Normal (Int (-1)))).
Proof.
  unfold LeaderboardEngine.getInstance.
  destruct (m !! g) as [e|] eqn:E; simpl.
  - by rewrite E.
  - rewrite lookup_insert_eq. split; [done|]. intros _. repeat split.
    intros k. unfold LeaderboardEngine.getTopK. simpl.
    rewrite (getTopK_spec _ [] k Inv_new). by rewrite take_nil.
Qed.
